(** * DOT serialisation of SECL rule syntax trees

    A shallow embedding of [pkg/security/secl/ast/dot/dot.go]: the
    [Marshaler] that walks the syntax tree of a rule and streams a
    [digraph] description of it to an [io.Writer].

    Go features and how they appear here:
    - [interface{}] values switched on by type: the sum type [value];
    - pointers that are only tested against [nil] and dereferenced: [option];
    - pointers that are also formatted with [%p]: [ptr], an optional
      address together with the pointee;
    - [error] results: the type [outcome], which also records a run-time
      panic (a nil dereference);
    - the [io.Writer] held by the marshaler: a type class [Writer], the
      state of the sink being threaded through every call. *)

From Stdlib Require Import ZArith NArith PArith List String Ascii Bool Lia.
From Stdlib Require Import Permutation.
From Stdlib Require Import DecimalString HexadecimalString DecimalZ HexadecimalN.
From Stdlib Require Import DecimalPos HexadecimalPos.
Import ListNotations.

Open Scope string_scope.
Open Scope list_scope.

(** ** Strings and formatting verbs *)

Definition nl : string := String (ascii_of_nat 10) EmptyString.
Definition dquote : string := String (ascii_of_nat 34) EmptyString.

(** [strconv.Itoa] and the verb [%d]: signed decimal, no padding. *)
Definition itoa (z : Z) : string :=
  DecimalString.NilZero.string_of_int (Z.to_int z).

(** An address is never zero; the nil pointer is formatted as address 0. *)
Definition addr := positive.

(** The verb [%p] on a raw address: [0x] and lower-case hexadecimal. *)
Definition fmt_addr (a : N) : string :=
  ("0x" ++ HexadecimalString.NilZero.string_of_uint (N.to_hex_uint a))%string.

(** [strings.SplitN(s, sep, 2)] for a one-character separator. *)
Fixpoint cut (sep : ascii) (s : string) : option (string * string) :=
  match s with
  | EmptyString => None
  | String a r =>
      if Ascii.eqb a sep then Some (EmptyString, r)
      else match cut sep r with
           | Some (x, y) => Some (String a x, y)
           | None => None
           end
  end.

Definition SplitN2 (s : string) (sep : ascii) : list string :=
  match cut sep s with
  | Some (x, y) => [x; y]
  | None => [s]
  end.

(** ** Pointers *)

Record ref (T : Type) : Type := Ref { ref_addr : addr; ref_val : T }.
Arguments Ref {T} _ _.
Arguments ref_addr {T} _.
Arguments ref_val {T} _.

Definition ptr (T : Type) : Type := option (ref T).

Definition fmt_p {T : Type} (p : ptr T) : string :=
  match p with
  | None => fmt_addr 0%N
  | Some r => fmt_addr (Npos (ref_addr r))
  end.

(** ** The syntax tree *)

(** Modelled from the spec: [lexer.Position] is declared outside this
    package; only its [Offset] is read. *)
Record Position : Type := { Offset : Z }.

(** Modelled from the spec: the node structures of package [ast], which
    [dot.go] imports.  Field names are the ones [dot.go] reads, prefixed
    by the structure they belong to.  The induction used throughout is on
    the number of nodes ([size], below), so no eliminators are generated. *)
Local Unset Elimination Schemes.
Inductive Rule : Type :=
  mkRule { Rule_Pos : Position;
           Rule_BooleanExpression : option BooleanExpression }
with BooleanExpression : Type :=
  mkBooleanExpression { BooleanExpression_Pos : Position;
                        BooleanExpression_Expression : option Expression }
with Expression : Type :=
  mkExpression { Expression_Pos : Position;
                 Expression_Comparison : option Comparison;
                 Expression_Op : ptr string;
                 Expression_Next : option Expression }
with Comparison : Type :=
  mkComparison { Comparison_Pos : Position;
                 Comparison_BitOperation : option BitOperation;
                 Comparison_ArrayComparison : option ArrayComparison;
                 Comparison_ScalarComparison : option ScalarComparison }
with ScalarComparison : Type :=
  mkScalarComparison { ScalarComparison_Pos : Position;
                       ScalarComparison_Op : ptr string;
                       ScalarComparison_Next : option BitOperation }
with ArrayComparison : Type :=
  mkArrayComparison { ArrayComparison_Pos : Position;
                      ArrayComparison_Op : ptr string;
                      ArrayComparison_Array : ptr Array }
with Array : Type :=
  mkArray { Array_Pos : Position;
            Array_Strings : list string;
            Array_Numbers : list Z }
with BitOperation : Type :=
  mkBitOperation { BitOperation_Pos : Position;
                   BitOperation_Unary : option Unary;
                   BitOperation_Op : ptr string;
                   BitOperation_Next : option BitOperation }
with Unary : Type :=
  mkUnary { Unary_Pos : Position;
            Unary_Op : ptr string;
            Unary_Unary : option Unary;
            Unary_Primary : option Primary }
with Primary : Type :=
  mkPrimary { Primary_Pos : Position;
              Primary_Ident : ptr string;
              Primary_Number : ptr Z;
              Primary_String : ptr string;
              Primary_SubExpression : option Expression }.
Local Set Elimination Schemes.

(** ** Synthetic display nodes *)

Record node : Type := { id : string; label : string }.

Definition newNode (id label : string) : node := {| id := id; label := label |}.

(** ** Dynamic values

    What an [interface{}] handed to the marshaler can hold: a (possibly
    nil) pointer to one of the ten structures, a pointer to a synthetic
    [node], or a value of any other type, of which only the name of the
    type is ever observed. *)
Inductive value : Type :=
| VRule (p : option Rule)
| VExpression (p : option Expression)
| VComparison (p : option Comparison)
| VScalarComparison (p : option ScalarComparison)
| VArrayComparison (p : option ArrayComparison)
| VArray (p : ptr Array)
| VBooleanExpression (p : option BooleanExpression)
| VBitOperation (p : option BitOperation)
| VUnary (p : option Unary)
| VPrimary (p : option Primary)
| VNode (p : option node)
| VOther (tyname : string).

(** [reflect.TypeOf(n).String()] *)
Definition TypeOf (n : value) : string :=
  match n with
  | VRule _ => "*ast.Rule"
  | VExpression _ => "*ast.Expression"
  | VComparison _ => "*ast.Comparison"
  | VScalarComparison _ => "*ast.ScalarComparison"
  | VArrayComparison _ => "*ast.ArrayComparison"
  | VArray _ => "*ast.Array"
  | VBooleanExpression _ => "*ast.BooleanExpression"
  | VBitOperation _ => "*ast.BitOperation"
  | VUnary _ => "*ast.Unary"
  | VPrimary _ => "*ast.Primary"
  | VNode _ => "*dot.node"
  | VOther t => t
  end.

(** ** Results *)

Inductive error : Type :=
| WriteError (cause : string)      (* an error returned by the sink *)
| Errorf (msg : string).           (* an error built by [fmt.Errorf] *)

Inductive outcome (A : Type) : Type :=
| Ok (a : A)
| Err (e : error)
| Panic.                           (* nil pointer dereference *)
Arguments Ok {A} _.
Arguments Err {A} _.
Arguments Panic {A}.

Definition unsupported (n : value) : error :=
  Errorf ("unsupported node type: " ++ TypeOf n)%string.

Definition empty_primary : error := Errorf "empty ast.Primary".

(** ** Identifiers, labels and children *)

Definition getID (n : value) : outcome string :=
  match n with
  | VRule (Some n) => Ok ("Rule" ++ itoa (Offset (Rule_Pos n)))%string
  | VExpression (Some n) =>
      Ok ("Expression" ++ itoa (Offset (Expression_Pos n)))%string
  | VComparison (Some n) =>
      Ok ("Comparison" ++ itoa (Offset (Comparison_Pos n)))%string
  | VScalarComparison (Some n) =>
      Ok ("ScalarComparison" ++ itoa (Offset (ScalarComparison_Pos n)))%string
  | VArrayComparison (Some n) =>
      Ok ("ArrayComparison" ++ itoa (Offset (ArrayComparison_Pos n)))%string
  | VArray (Some n) =>
      Ok ("Array" ++ itoa (Offset (Array_Pos (ref_val n))))%string
  | VBooleanExpression (Some n) =>
      Ok ("BooleanExpression" ++ itoa (Offset (BooleanExpression_Pos n)))%string
  | VBitOperation (Some n) =>
      Ok ("BitOperation" ++ itoa (Offset (BitOperation_Pos n)))%string
  | VUnary (Some n) => Ok ("Unary" ++ itoa (Offset (Unary_Pos n)))%string
  | VPrimary (Some n) => Ok ("Primary" ++ itoa (Offset (Primary_Pos n)))%string
  | VNode (Some n) => Ok (id n)
  | VOther _ => Err (unsupported n)
  | _ => Panic
  end.

Definition getLabel (n : value) : outcome string :=
  match n with
  | VNode (Some n) => Ok (label n)
  | VNode None => Panic
  | _ => Ok (last (SplitN2 (TypeOf n) ".") EmptyString)
  end.

(** The synthetic child standing for an operator. *)
Definition opNode (op : ref string) : value :=
  VNode (Some (newNode ("Op" ++ fmt_p (Some op)) ("Op\n" ++ ref_val op)%string)).

(** [append(children, newNode(...))] guarded by [n.Op != nil]. *)
Definition optOp (op : ptr string) : list value :=
  match op with
  | Some r => [opNode r]
  | None => []
  end.

(** [append(children, x)] guarded by [x != nil]. *)
Definition optChild {T : Type} (inj : option T -> value) (x : option T)
  : list value :=
  match x with
  | Some _ => [inj x]
  | None => []
  end.

(** The loop over [n.Numbers] in the [*ast.Array] case. *)
Fixpoint joinNumbers (i : nat) (s : string) (numbers : list Z) : string :=
  match numbers with
  | [] => s
  | n :: rest =>
      joinNumbers (S i)
        (if Nat.eqb i 0 then s ++ itoa n else s ++ ", " ++ itoa n)%string
        rest
  end.

Definition getChildren (n : value) : outcome (list value) :=
  match n with
  | VRule (Some n) => Ok [VBooleanExpression (Rule_BooleanExpression n)]
  | VExpression (Some n) =>
      Ok ([VComparison (Expression_Comparison n)]
            ++ optOp (Expression_Op n)
            ++ optChild VExpression (Expression_Next n))
  | VBooleanExpression (Some n) =>
      Ok [VExpression (BooleanExpression_Expression n)]
  | VComparison (Some n) =>
      Ok ([VBitOperation (Comparison_BitOperation n)]
            ++ optChild VArrayComparison (Comparison_ArrayComparison n)
            ++ optChild VScalarComparison (Comparison_ScalarComparison n))
  | VArrayComparison (Some n) =>
      match ArrayComparison_Op n with
      | Some op => Ok [opNode op; VArray (ArrayComparison_Array n)]
      | None => Panic
      end
  | VScalarComparison (Some n) =>
      match ScalarComparison_Op n with
      | Some op => Ok [opNode op; VBitOperation (ScalarComparison_Next n)]
      | None => Panic
      end
  | VArray (Some r) =>
      let n := ref_val r in
      match Array_Strings n with
      | _ :: _ =>
          Ok [VNode (Some (newNode ("Array" ++ fmt_p (Some r))
                                   (String.concat "," (Array_Strings n))))]
      | [] =>
          let s := joinNumbers 0 EmptyString (Array_Numbers n) in
          Ok [VNode (Some (newNode ("Array" ++ fmt_p (Some r)) s))]
      end
  | VBitOperation (Some n) =>
      Ok ([VUnary (BitOperation_Unary n)]
            ++ optOp (BitOperation_Op n)
            ++ optChild VBitOperation (BitOperation_Next n))
  | VUnary (Some n) =>
      Ok (optOp (Unary_Op n)
            ++ optChild VUnary (Unary_Unary n)
            ++ optChild VPrimary (Unary_Primary n))
  | VPrimary (Some n) =>
      match Primary_Ident n, Primary_Number n, Primary_String n,
            Primary_SubExpression n with
      | Some r, _, _, _ =>
          Ok [VNode (Some (newNode ("Ident" ++ fmt_p (Some r))
                                   ("Ident\n" ++ ref_val r)))]
      | None, Some r, _, _ =>
          Ok [VNode (Some (newNode ("Number" ++ fmt_p (Some r))
                                   ("Number\n" ++ itoa (ref_val r))))]
      | None, None, Some r, _ =>
          Ok [VNode (Some (newNode ("String" ++ fmt_p (Some r))
                                   ("String\n" ++ ref_val r)))]
      | None, None, None, Some _ => Ok [VExpression (Primary_SubExpression n)]
      | None, None, None, None => Err empty_primary
      end
  | VNode _ => Ok []
  | VOther _ => Err (unsupported n)
  | _ => Panic
  end.

(** ** The sink *)

(** [io.Writer]: a write moves the sink to a new state and may report an
    error.  A sink is free to keep part of a write it rejects. *)
Class Writer (W : Type) : Type :=
  { Write : W -> string -> W * option error }.

(** An in-memory sink that accepts everything (a [bytes.Buffer]). *)
#[global] Instance Buffer : Writer string :=
  { Write := fun buf s => ((buf ++ s)%string, None) }.

(** A sink that accepts a given number of writes and rejects the rest. *)
Record Limited : Type := { budget : nat; data : string }.

#[global] Instance LimitedWriter : Writer Limited :=
  { Write := fun l s =>
      match budget l with
      | 0 => (l, Some (WriteError "short write"))
      | S k => ({| budget := k; data := (data l ++ s)%string |}, None)
      end }.

(** ** The marshaler *)

Record Marshaler (W : Type) : Type := { w : W }.
Arguments w {W} _.

Definition NewMarshaler {W : Type} (w : W) : Marshaler W := {| w := w |}.

(** Number of structures below a value; it bounds the depth of the
    recursion of [writeNode]. *)
Definition osize {T : Type} (f : T -> nat) (x : option T) : nat :=
  match x with
  | Some t => f t
  | None => 0
  end.

Definition size_ArrayComparison (n : ArrayComparison) : nat :=
  S (osize (fun _ => 1) (ArrayComparison_Array n)).

Fixpoint size_Expression (n : Expression) : nat :=
  S (osize size_Comparison (Expression_Comparison n)
     + osize size_Expression (Expression_Next n))
with size_Comparison (n : Comparison) : nat :=
  S (osize size_BitOperation (Comparison_BitOperation n)
     + osize size_ArrayComparison (Comparison_ArrayComparison n)
     + osize size_ScalarComparison (Comparison_ScalarComparison n))
with size_ScalarComparison (n : ScalarComparison) : nat :=
  S (osize size_BitOperation (ScalarComparison_Next n))
with size_BitOperation (n : BitOperation) : nat :=
  S (osize size_Unary (BitOperation_Unary n)
     + osize size_BitOperation (BitOperation_Next n))
with size_Unary (n : Unary) : nat :=
  S (osize size_Unary (Unary_Unary n)
     + osize size_Primary (Unary_Primary n))
with size_Primary (n : Primary) : nat :=
  S (osize size_Expression (Primary_SubExpression n)).

Definition size_BooleanExpression (n : BooleanExpression) : nat :=
  S (osize size_Expression (BooleanExpression_Expression n)).

Definition size_Rule (n : Rule) : nat :=
  S (osize size_BooleanExpression (Rule_BooleanExpression n)).

Definition size (n : value) : nat :=
  match n with
  | VRule p => osize size_Rule p
  | VExpression p => osize size_Expression p
  | VComparison p => osize size_Comparison p
  | VScalarComparison p => osize size_ScalarComparison p
  | VArrayComparison p => osize size_ArrayComparison p
  | VArray p => osize (fun _ => 1) p
  | VBooleanExpression p => osize size_BooleanExpression p
  | VBitOperation p => osize size_BitOperation p
  | VUnary p => osize size_Unary p
  | VPrimary p => osize size_Primary p
  | VNode _ => 0
  | VOther _ => 0
  end.

Section Marshal.
Context {W : Type} `{Writer W}.

Definition result : Type := Marshaler W * outcome unit.

Definition writeString (d : Marshaler W) (s : string) : result :=
  let (w', err) := Write (w d) s in
  ({| w := w' |},
   match err with
   | None => Ok tt
   | Some e => Err e
   end).

Definition edgeLine (parentID childID : string) : string :=
  (parentID ++ " -> " ++ childID ++ nl)%string.

Definition writeEdge (d : Marshaler W) (parent child : value) : result :=
  match getID parent with
  | Ok parentID =>
      match getID child with
      | Ok childID => writeString d (edgeLine parentID childID)
      | Err e => (d, Err e)
      | Panic => (d, Panic)
      end
  | Err e => (d, Err e)
  | Panic => (d, Panic)
  end.

(** The [for _, child := range children] loop of [writeNode], over the
    recursive call [rec]. *)
Fixpoint rangeChildren (rec : Marshaler W -> value -> option result)
    (node : value) (children : list value) (d : Marshaler W)
  : option result :=
  match children with
  | [] => Some (d, Ok tt)
  | child :: rest =>
      match writeEdge d node child with
      | (d1, Ok _) =>
          match rec d1 child with
          | Some (d2, Ok _) => rangeChildren rec node rest d2
          | other => other
          end
      | (d1, Err e) => Some (d1, Err e)
      | (d1, Panic) => Some (d1, Panic)
      end
  end.

Definition declaration (id label : string) : string :=
  (id ++ "[label=" ++ dquote ++ label ++ dquote ++ "]" ++ nl)%string.

(** The body of [writeNode], its recursive call being [rec]. *)
Definition writeNode_body (rec : Marshaler W -> value -> option result)
    (d : Marshaler W) (node : value) : option result :=
  match getID node with
  | Ok id =>
      match getLabel node with
      | Ok label =>
          match writeString d (declaration id label) with
          | (d1, Ok _) =>
              match getChildren node with
              | Ok children => rangeChildren rec node children d1
              | Err e => Some (d1, Err e)
              | Panic => Some (d1, Panic)
              end
          | (d1, Err e) => Some (d1, Err e)
          | (d1, Panic) => Some (d1, Panic)
          end
      | Err e => Some (d, Err e)
      | Panic => Some (d, Panic)
      end
  | Err e => Some (d, Err e)
  | Panic => Some (d, Panic)
  end.

(** [writeNode] with the depth of its recursion bounded by [fuel];
    [None] when the bound is reached. *)
Fixpoint writeNode_fuel (fuel : nat) (d : Marshaler W) (node : value)
  : option result :=
  match fuel with
  | 0 => None
  | S fuel' => writeNode_body (writeNode_fuel fuel') d node
  end.

(** The recursion of [writeNode] is never deeper than the tree, so
    [size node + 1] levels are enough ([writeNode_fuel_enough] below);
    the default is never taken. *)
Definition writeNode (d : Marshaler W) (node : value) : result :=
  match writeNode_fuel (S (size node)) d node with
  | Some r => r
  | None => (d, Panic)
  end.

(** The loop of [writeNode] over [writeNode] itself. *)
Fixpoint writeChildren (node : value) (children : list value)
    (d : Marshaler W) : result :=
  match children with
  | [] => (d, Ok tt)
  | child :: rest =>
      match writeEdge d node child with
      | (d1, Ok _) =>
          match writeNode d1 child with
          | (d2, Ok _) => writeChildren node rest d2
          | other => other
          end
      | other => other
      end
  end.

Definition MarshalRule (d : Marshaler W) (r : option Rule) : result :=
  match writeString d ("digraph {" ++ nl) with
  | (d1, Ok _) =>
      match r with
      | Some r =>
          match writeNode d1 (VBooleanExpression (Rule_BooleanExpression r)) with
          | (d2, Ok _) => writeString d2 ("}" ++ nl)
          | other => other
          end
      | None => (d1, Panic)
      end
  | other => other
  end.
End Marshal.

(** ** Sinks that accept every write *)

(** [contents] is what the sink holds; a write appends to it and reports
    no error. *)
Class Accepting (W : Type) `{Writer W} : Type :=
  { contents : W -> string;
    Write_accepts : forall (w : W) (s : string),
      snd (Write w s) = None /\
      contents (fst (Write w s)) = (contents w ++ s)%string }.

#[global] Instance Buffer_accepting : Accepting string :=
  { contents := fun buf => buf;
    Write_accepts := fun buf s => conj eq_refl eq_refl }.

(** A second accepting sink, which also counts the writes it receives. *)
Record Counted : Type := { writes : nat; text : string }.

#[global] Instance CountedWriter : Writer Counted :=
  { Write := fun c s =>
      ({| writes := S (writes c); text := (text c ++ s)%string |}, None) }.

#[global] Instance Counted_accepting : Accepting Counted :=
  { contents := text;
    Write_accepts := fun c s => conj eq_refl eq_refl }.

(** ** The traversal as a sequence of events

    The order in which [writeNode] visits the tree, told without the
    sink: the declaration of a node, then for each child in the order of
    [getChildren] the edge to it followed by the events of the child.
    A node whose children cannot be enumerated has none here. *)

Definition children (n : value) : list value :=
  match getChildren n with
  | Ok cs => cs
  | _ => []
  end.

Inductive event : Type :=
| Decl (n : value)
| Edge (parent child : value).

Fixpoint walk_fuel (fuel : nat) (n : value) : list event :=
  match fuel with
  | 0 => []
  | S fuel' =>
      Decl n :: flat_map (fun c => Edge n c :: walk_fuel fuel' c) (children n)
  end.

Definition walk (n : value) : list event := walk_fuel (S (size n)) n.

Definition declared (evs : list event) : list value :=
  flat_map (fun e => match e with Decl n => [n] | Edge _ _ => [] end) evs.

Definition edges (evs : list event) : list (value * value) :=
  flat_map (fun e => match e with Decl _ => [] | Edge p c => [(p, c)] end) evs.

(** The nodes reachable through the child enumeration, in pre-order. *)
Definition reach (n : value) : list value := declared (walk n).

Definition str (o : outcome string) : string :=
  match o with
  | Ok s => s
  | _ => EmptyString
  end.

Definition render_event (e : event) : string :=
  match e with
  | Decl n => declaration (str (getID n)) (str (getLabel n))
  | Edge p c => edgeLine (str (getID p)) (str (getID c))
  end.

Definition render (evs : list event) : string :=
  String.concat EmptyString (map render_event evs).

(** What happens at a node on its own account: the failure of [getID]
    or of [getChildren] on it, if any. *)
Definition verdict (n : value) : outcome unit :=
  match getID n with
  | Ok _ =>
      match getChildren n with
      | Ok _ => Ok tt
      | Err e => Err e
      | Panic => Panic
      end
  | Err e => Err e
  | Panic => Panic
  end.

Fixpoint first_failure (l : list (outcome unit)) : outcome unit :=
  match l with
  | [] => Ok tt
  | Ok _ :: rest => first_failure rest
  | bad :: _ => bad
  end.

(** ** Well-formedness of a tree, node by node *)

Definition is_some {T : Type} (x : option T) : bool :=
  match x with
  | Some _ => true
  | None => false
  end.

(** A [Primary] with at least one of its four alternatives. *)
Definition populated (n : Primary) : bool :=
  is_some (Primary_Ident n) || is_some (Primary_Number n)
  || is_some (Primary_String n) || is_some (Primary_SubExpression n).

Definition empty_Primary (n : value) : bool :=
  match n with
  | VPrimary (Some p) => negb (populated p)
  | _ => false
  end.

(** An [ArrayComparison] or [ScalarComparison] without its operator. *)
Definition missing_operator (n : value) : bool :=
  match n with
  | VArrayComparison (Some c) => negb (is_some (ArrayComparison_Op c))
  | VScalarComparison (Some c) => negb (is_some (ScalarComparison_Op c))
  | _ => false
  end.

(** A [ScalarComparison] without its right-hand [BitOperation]. *)
Definition missing_operand (n : value) : bool :=
  match n with
  | VScalarComparison (Some c) => negb (is_some (ScalarComparison_Next c))
  | _ => false
  end.

(** A value of the closed set of variants that is not a nil pointer. *)
Definition present (n : value) : bool :=
  match n with
  | VRule p => is_some p
  | VExpression p => is_some p
  | VComparison p => is_some p
  | VScalarComparison p => is_some p
  | VArrayComparison p => is_some p
  | VArray p => is_some p
  | VBooleanExpression p => is_some p
  | VBitOperation p => is_some p
  | VUnary p => is_some p
  | VPrimary p => is_some p
  | VNode p => is_some p
  | VOther _ => false
  end.

(** A node in order: present, its operator there if it is a comparison,
    populated if it is a [Primary].  Mandatory operands that are absent
    show as nil children, which are not [present]. *)
Definition node_ok (n : value) : bool :=
  present n && negb (missing_operator n) && negb (empty_Primary n).

Definition well_formed (n : value) : bool := forallb node_ok (reach n).

(** The node [MarshalRule] starts from. *)
Definition root_of (r : Rule) : value :=
  VBooleanExpression (Rule_BooleanExpression r).

Definition well_formed_rule (r : Rule) : bool := well_formed (root_of r).

(** A value outside the closed set of variants. *)
Definition foreign (n : value) : bool :=
  match n with
  | VOther _ => true
  | _ => false
  end.

(** Reachability through the child enumeration, told without the
    traversal. *)
Inductive reachable (root : value) : value -> Prop :=
| reachable_root : reachable root root
| reachable_child (n c : value) :
    reachable root n -> In c (children n) -> reachable root c.

(** The identifier under which a node is declared. *)
Definition node_id (n : value) : string := str (getID n).

(** ** Labels of arrays *)

(** The label that the words of the specification give to the synthetic
    child of an [Array]: its elements joined by a comma. *)
Definition spec_Array_label (a : Array) : string :=
  match Array_Strings a with
  | _ :: _ => String.concat "," (Array_Strings a)
  | [] => String.concat "," (map itoa (Array_Numbers a))
  end.

(** The label that the code gives: strings joined by a comma, numbers by
    a comma and a space. *)
Definition Array_label (a : Array) : string :=
  match Array_Strings a with
  | _ :: _ => String.concat "," (Array_Strings a)
  | [] => String.concat ", " (map itoa (Array_Numbers a))
  end.

(** ** Identity of nodes *)

Inductive kind : Type :=
| KRule | KExpression | KComparison | KScalarComparison | KArrayComparison
| KArray | KBooleanExpression | KBitOperation | KUnary | KPrimary.

Definition kind_name (k : kind) : string :=
  match k with
  | KRule => "Rule"
  | KExpression => "Expression"
  | KComparison => "Comparison"
  | KScalarComparison => "ScalarComparison"
  | KArrayComparison => "ArrayComparison"
  | KArray => "Array"
  | KBooleanExpression => "BooleanExpression"
  | KBitOperation => "BitOperation"
  | KUnary => "Unary"
  | KPrimary => "Primary"
  end.

(** Variant and source offset of an original node; nothing for a nil
    pointer, a synthetic node or a foreign value. *)
Definition node_key (n : value) : option (kind * Z) :=
  match n with
  | VRule (Some n) => Some (KRule, Offset (Rule_Pos n))
  | VExpression (Some n) => Some (KExpression, Offset (Expression_Pos n))
  | VComparison (Some n) => Some (KComparison, Offset (Comparison_Pos n))
  | VScalarComparison (Some n) =>
      Some (KScalarComparison, Offset (ScalarComparison_Pos n))
  | VArrayComparison (Some n) =>
      Some (KArrayComparison, Offset (ArrayComparison_Pos n))
  | VArray (Some n) => Some (KArray, Offset (Array_Pos (ref_val n)))
  | VBooleanExpression (Some n) =>
      Some (KBooleanExpression, Offset (BooleanExpression_Pos n))
  | VBitOperation (Some n) => Some (KBitOperation, Offset (BitOperation_Pos n))
  | VUnary (Some n) => Some (KUnary, Offset (Unary_Pos n))
  | VPrimary (Some n) => Some (KPrimary, Offset (Primary_Pos n))
  | _ => None
  end.

Inductive synthetic : Type := SOp | SArray | SIdent | SNumber | SString.

Definition synthetic_name (k : synthetic) : string :=
  match k with
  | SOp => "Op"
  | SArray => "Array"
  | SIdent => "Ident"
  | SNumber => "Number"
  | SString => "String"
  end.

Definition tag_of {T : Type} (k : synthetic) (p : ptr T)
  : list (synthetic * addr) :=
  match p with
  | Some r => [(k, ref_addr r)]
  | None => []
  end.

(** The value instances (kind of synthetic node and address) from which
    the synthetic children of a node are built. *)
Definition instance_tags (n : value) : list (synthetic * addr) :=
  match n with
  | VExpression (Some n) => tag_of SOp (Expression_Op n)
  | VArrayComparison (Some n) => tag_of SOp (ArrayComparison_Op n)
  | VScalarComparison (Some n) => tag_of SOp (ScalarComparison_Op n)
  | VArray p => tag_of SArray p
  | VBitOperation (Some n) => tag_of SOp (BitOperation_Op n)
  | VUnary (Some n) => tag_of SOp (Unary_Op n)
  | VPrimary (Some n) =>
      match Primary_Ident n, Primary_Number n, Primary_String n with
      | Some r, _, _ => [(SIdent, ref_addr r)]
      | None, Some r, _ => [(SNumber, ref_addr r)]
      | None, None, Some r => [(SString, ref_addr r)]
      | None, None, None => []
      end
  | _ => []
  end.

Definition option_list {T : Type} (x : option T) : list T :=
  match x with
  | Some t => [t]
  | None => []
  end.

(** An original node: a non-nil pointer to one of the ten structures. *)
Definition is_original (n : value) : bool := is_some (node_key n).

(** A synthetic node. *)
Definition is_synthetic (n : value) : bool :=
  match n with
  | VNode _ => true
  | _ => false
  end.

(** The identifier built from a (variant, offset) pair, and the one
    built from a value instance. *)
Definition position_id (p : kind * Z) : string :=
  (kind_name (fst p) ++ itoa (snd p))%string.

Definition instance_id (t : synthetic * addr) : string :=
  (synthetic_name (fst t) ++ fmt_addr (Npos (snd t)))%string.

(** The letters an identifier starts with, and what follows them. *)
Definition is_letter (c : ascii) : bool :=
  let n := nat_of_ascii c in
  (Nat.leb 65 n && Nat.leb n 90) || (Nat.leb 97 n && Nat.leb n 122).

Fixpoint take_letters (s : string) : string :=
  match s with
  | EmptyString => EmptyString
  | String c r => if is_letter c then String c (take_letters r) else EmptyString
  end.

Fixpoint drop_letters (s : string) : string :=
  match s with
  | EmptyString => EmptyString
  | String c r => if is_letter c then drop_letters r else s
  end.

(** Every node of the tree has its own (variant, offset) pair. *)
Definition unique_positions (n : value) : Prop :=
  NoDup (flat_map (fun v => option_list (node_key v)) (reach n)).

(** No value instance is used for two synthetic nodes. *)
Definition unique_instances (n : value) : Prop :=
  NoDup (flat_map instance_tags (reach n)).

(** ** Reading a document back *)

Fixpoint split_lines (s : string) : list string :=
  match s with
  | EmptyString => []
  | String a r =>
      if Ascii.eqb a (ascii_of_nat 10) then EmptyString :: split_lines r
      else match split_lines r with
           | l :: ls => String a l :: ls
           | [] => [String a EmptyString]
           end
  end.

Definition has_infix (sub s : string) : bool :=
  is_some (String.index 0 sub s).

Definition is_declaration (line : string) : bool :=
  has_infix ("[label=" ++ dquote)%string line.

Definition is_edge (line : string) : bool :=
  has_infix " -> " line && negb (is_declaration line).

Definition count_declarations (doc : string) : nat :=
  List.length (filter is_declaration (split_lines doc)).

Definition count_edges (doc : string) : nat :=
  List.length (filter is_edge (split_lines doc)).

(** ** The rule [a == 1] *)

Module Example_a_eq_1.
Definition at_ (o : Z) : Position := {| Offset := o |}.

Definition lhs : BitOperation :=
  mkBitOperation (at_ 0)
    (Some (mkUnary (at_ 0) None None
      (Some (mkPrimary (at_ 0) (Some (Ref 0xc000010250%positive "a")) None None None))))
    None None.

Definition rhs : BitOperation :=
  mkBitOperation (at_ 5)
    (Some (mkUnary (at_ 5) None None
      (Some (mkPrimary (at_ 5) None (Some (Ref 0xc000012088%positive 1%Z)) None None))))
    None None.

Definition rule : Rule :=
  mkRule (at_ 0)
    (Some (mkBooleanExpression (at_ 0)
      (Some (mkExpression (at_ 0)
        (Some (mkComparison (at_ 0) (Some lhs) None
          (Some (mkScalarComparison (at_ 2)
                   (Some (Ref 0xc000010260%positive "==")) (Some rhs)))))
        None None)))).

Definition run : Marshaler string * outcome unit :=
  MarshalRule (NewMarshaler EmptyString) (Some rule).

Definition document : string := w (fst run).



(** The same rule with the operator of its comparison missing. *)
Definition rule_no_operator : Rule :=
  mkRule (at_ 0)
    (Some (mkBooleanExpression (at_ 0)
      (Some (mkExpression (at_ 0)
        (Some (mkComparison (at_ 0) (Some lhs) None
          (Some (mkScalarComparison (at_ 2) None (Some rhs)))))
        None None)))).
End Example_a_eq_1.

(** ** The rule [a in ["x","y"]] *)

Module Example_a_in_xy.
Definition at_ (o : Z) : Position := {| Offset := o |}.

Definition array : ref Array :=
  Ref 0xc00001c0c0%positive (mkArray (at_ 5) ["x"; "y"] []).

Definition numbers : ref Array :=
  Ref 0xc00001c0f0%positive (mkArray (at_ 5) [] [1%Z; 2%Z]).

Definition both : ref Array :=
  Ref 0xc00001c120%positive (mkArray (at_ 5) ["x"] [1%Z; 2%Z]).

Definition neither : ref Array :=
  Ref 0xc00001c150%positive (mkArray (at_ 5) [] []).

Definition rule : Rule :=
  mkRule (at_ 0)
    (Some (mkBooleanExpression (at_ 0)
      (Some (mkExpression (at_ 0)
        (Some (mkComparison (at_ 0) (Some Example_a_eq_1.lhs)
          (Some (mkArrayComparison (at_ 2)
                   (Some (Ref 0xc000010270%positive "in")) (Some array)))
          None))
        None None)))).
End Example_a_in_xy.

(** ** A comparison at offset 17 *)

Module Example_Comparison17.
Definition comparison : value :=
  VComparison (Some (mkComparison {| Offset := 17 |}
                       (Some Example_a_eq_1.lhs) None None)).
End Example_Comparison17.


(** ** Sequences of writes *)

Section Writes.
Context {W : Type} `{Writer W}.

(** Calls of [writeString] one after the other, returning at the first
    one that fails, as [writeNode], [writeEdge] and [MarshalRule] chain
    them. *)
Fixpoint writeStrings (d : Marshaler W) (ss : list string)
  : Marshaler W * outcome unit :=
  match ss with
  | [] => (d, Ok tt)
  | s :: rest =>
      match writeString d s with
      | (d1, Ok _) => writeStrings d1 rest
      | other => other
      end
  end.
End Writes.

(** The writes of a whole document: the opening line, one write for
    each declaration and each edge of the traversal, the closing line. *)
Definition document_writes (r : Rule) : list string :=
  ("digraph {" ++ nl)%string
  :: map render_event (walk (root_of r)) ++ [("}" ++ nl)%string].

(** The text of a whole document. *)
Definition document_text (r : Rule) : string :=
  (("digraph {" ++ nl) ++ render (walk (root_of r)) ++ ("}" ++ nl))%string.

(** ** A chain of two connected comparisons sharing one operator *)

Module Example_shared_operator.
Definition at_ (o : Z) : Position := {| Offset := o |}.

Definition conn : ref string := Ref 0xc000010280%positive "&&".

Definition operand (o : Z) (name : addr) : Comparison :=
  mkComparison (at_ o)
    (Some (mkBitOperation (at_ o)
      (Some (mkUnary (at_ o) None None
        (Some (mkPrimary (at_ o) (Some (Ref name "a")) None None None))))
      None None))
    None None.

(** [a && a && a], the two connectors being one and the same value. *)
Definition rule : Rule :=
  mkRule (at_ 0)
    (Some (mkBooleanExpression (at_ 0)
      (Some (mkExpression (at_ 0)
        (Some (operand 0 0xc000010290%positive)) (Some conn)
        (Some (mkExpression (at_ 5)
          (Some (operand 5 0xc0000102a0%positive)) (Some conn)
          (Some (mkExpression (at_ 10)
            (Some (operand 10 0xc0000102b0%positive)) None None)))))))).
End Example_shared_operator.

(** ** Trees that break an invariant of the parser *)

Module Example_malformed.
Definition at_ (o : Z) : Position := {| Offset := o |}.

(** A rule whose [BooleanExpression] has no [Expression]. *)
Definition no_expression : Rule :=
  mkRule (at_ 0) (Some (mkBooleanExpression (at_ 0) None)).


End Example_malformed.

(** ** Order of the events *)

(** Every edge is followed at once by the declaration of its target. *)
Fixpoint edges_lead (evs : list event) : Prop :=
  match evs with
  | [] => True
  | Decl _ :: rest => edges_lead rest
  | Edge _ c :: rest =>
      match rest with
      | [] => False
      | next :: _ => next = Decl c /\ edges_lead rest
      end
  end.

(** ** Nodes with unusual sets of fields *)

Module Example_shapes.
Definition at_ (o : Z) : Position := {| Offset := o |}.

(** A [Unary] with no operator, no nested [Unary] and no [Primary]. *)
Definition bare : Unary := mkUnary (at_ 4) None None None.
End Example_shapes.

(** ** The first malformed node *)

(** The first node, in the order of the traversal, that is not in
    order; none when the tree is well formed. *)
Definition first_malformed (root : value) : option value :=
  find (fun n => negb (node_ok n)) (reach root).

(** ** Trees where a malformed node is not the first, or is not met *)

Module Example_unmet.
Definition at_ (o : Z) : Position := {| Offset := o |}.

Definition empty : Primary := mkPrimary (at_ 7) None None None None.

Definition operand (p : Primary) : BitOperation :=
  mkBitOperation (Primary_Pos p)
    (Some (mkUnary (Primary_Pos p) None None (Some p))) None None.

Definition single (c : Comparison) : Rule :=
  mkRule (at_ 0)
    (Some (mkBooleanExpression (at_ 0)
      (Some (mkExpression (at_ 0) (Some c) None None)))).





(** The empty [Primary] on the left of a comparison without operator. *)
Definition empty_first_rule : Rule :=
  single (mkComparison (at_ 0) (Some (operand empty)) None
            (Some (mkScalarComparison (at_ 9) None
                     (Some Example_a_eq_1.rhs)))).
End Example_unmet.

(** ** Two connectors with the same symbol *)

Module Example_two_operators.
Definition at_ (o : Z) : Position := {| Offset := o |}.

Definition conn1 : ref string := Ref 0xc000010300%positive "&&".
Definition conn2 : ref string := Ref 0xc000010310%positive "&&".

(** [a && a && a], each connector being a value of its own. *)
Definition rule : Rule :=
  mkRule (at_ 0)
    (Some (mkBooleanExpression (at_ 0)
      (Some (mkExpression (at_ 0)
        (Some (Example_shared_operator.operand 0 0xc000010290%positive))
        (Some conn1)
        (Some (mkExpression (at_ 5)
          (Some (Example_shared_operator.operand 5 0xc0000102a0%positive))
          (Some conn2)
          (Some (mkExpression (at_ 10)
            (Some (Example_shared_operator.operand 10 0xc0000102b0%positive))
            None None)))))))).
End Example_two_operators.

(** * Properties *)

(** ** Strings *)

Lemma append_assoc (a b c : string) :
  ((a ++ b) ++ c = a ++ (b ++ c))%string.
Proof. induction a as [|x a IH]; simpl; [reflexivity | now rewrite IH]. Qed.

Lemma append_empty_r (a : string) : (a ++ EmptyString)%string = a.
Proof. induction a as [|x a IH]; simpl; [reflexivity | now rewrite IH]. Qed.

Lemma concat_empty_cons (x : string) (l : list string) :
  String.concat EmptyString (x :: l) = (x ++ String.concat EmptyString l)%string.
Proof.
  destruct l as [|y l]; simpl; [now rewrite append_empty_r | reflexivity].
Qed.

Lemma render_cons (e : event) (l : list event) :
  render (e :: l) = (render_event e ++ render l)%string.
Proof. unfold render. rewrite map_cons. apply concat_empty_cons. Qed.

Lemma render_app (l1 l2 : list event) :
  render (l1 ++ l2) = (render l1 ++ render l2)%string.
Proof.
  induction l1 as [|e l1 IH]; [reflexivity|].
  rewrite <- app_comm_cons, !render_cons, IH. now rewrite append_assoc.
Qed.

(** ** The children of a node are smaller than the node *)

Ltac break_node :=
  repeat match goal with
         | x : ptr _ |- _ => destruct x
         | x : option _ |- _ => destruct x
         end.

Ltac forall_list :=
  repeat first [apply Forall_nil | apply Forall_cons].

Lemma children_smaller (n : value) :
  Forall (fun c => size c < size n) (children n).
Proof.
  unfold children.
  destruct n as [[n|]|[n|]|[n|]|[n|]|[n|]|[n|]|[n|]|[n|]|[n|]|[n|]|[n|]|t];
    simpl; try apply Forall_nil.
  all: try (destruct n; simpl in *; break_node; simpl; forall_list;
            unfold size, size_Rule, size_BooleanExpression,
              size_ArrayComparison, osize; simpl; lia).
  destruct n as [a [p ss ns]]; simpl.
  destruct ss; forall_list; simpl; lia.
Qed.

Lemma children_of_ok (n : value) (cs : list value) :
  getChildren n = Ok cs -> children n = cs.
Proof. unfold children. now intros ->. Qed.

(** Induction on a tree: a property that holds of a node whenever it
    holds of its children holds of every node. *)
Lemma tree_ind (P : value -> Prop) :
  (forall n, (forall c, In c (children n) -> P c) -> P n) ->
  forall n, P n.
Proof.
  intros step n.
  remember (size n) as k eqn:Hk.
  revert n Hk. induction k as [k IH] using lt_wf_ind. intros n ->.
  apply step. intros c Hc. apply (IH (size c)); [|reflexivity].
  pose proof (children_smaller n) as Hs.
  rewrite Forall_forall in Hs. now apply Hs.
Qed.

(** ** The bound on the recursion is never reached *)

Section Fuel.
Context {W : Type} `{Writer W}.

Lemma rangeChildren_ext rec1 rec2 (node : value) (cs : list value) :
  (forall c, In c cs -> forall d, rec1 d c = rec2 d c) ->
  forall d : Marshaler W,
    rangeChildren rec1 node cs d = rangeChildren rec2 node cs d.
Proof.
  induction cs as [|c cs IH]; intros Hrec d; simpl; [reflexivity|].
  destruct (writeEdge d node c) as [d1 [[]|e|]]; try reflexivity.
  rewrite (Hrec c (in_eq _ _) d1).
  destruct (rec2 d1 c) as [[d2 [[]|e|]]|]; try reflexivity.
  apply IH. intros c' Hc'. apply Hrec. now right.
Qed.

Lemma writeNode_body_ext rec1 rec2 (d : Marshaler W) (node : value) :
  (forall c, In c (children node) -> forall d, rec1 d c = rec2 d c) ->
  writeNode_body rec1 d node = writeNode_body rec2 d node.
Proof.
  unfold writeNode_body, children. intros Hrec.
  destruct (getID node); try reflexivity.
  destruct (getLabel node); try reflexivity.
  destruct (writeString d _) as [d1 [[]|e|]]; try reflexivity.
  destruct (getChildren node); try reflexivity.
  now apply rangeChildren_ext.
Qed.

Lemma child_fits (fuel : nat) (node c : value) :
  size node < S fuel -> In c (children node) -> size c < fuel.
Proof.
  intros Hn Hc. pose proof (children_smaller node) as Hs.
  rewrite Forall_forall in Hs. specialize (Hs c Hc). lia.
Qed.

Lemma writeNode_fuel_stable (f1 f2 : nat) :
  forall (node : value) (d : Marshaler W),
    size node < f1 -> size node < f2 ->
    writeNode_fuel f1 d node = writeNode_fuel f2 d node.
Proof.
  revert f2. induction f1 as [|f1 IH]; intros f2 node d H1 H2; [lia|].
  destruct f2 as [|f2]; [lia|]. simpl.
  apply writeNode_body_ext. intros c Hc d'.
  apply IH; eapply child_fits; eassumption.
Qed.

Lemma rangeChildren_some rec (node : value) (cs : list value) :
  (forall c, In c cs -> forall d, rec d c <> None) ->
  forall d : Marshaler W, rangeChildren rec node cs d <> None.
Proof.
  induction cs as [|c cs IH]; intros Hrec d; simpl; [discriminate|].
  destruct (writeEdge d node c) as [d1 [[]|e|]]; try discriminate.
  pose proof (Hrec c (in_eq _ _) d1) as Hc.
  destruct (rec d1 c) as [[d2 [[]|e|]]|]; try discriminate; try congruence.
  apply IH. intros c' Hc'. apply Hrec. now right.
Qed.

(** Enough fuel gives a result. *)
Lemma writeNode_fuel_enough (fuel : nat) :
  forall (node : value) (d : Marshaler W),
    size node < fuel -> writeNode_fuel fuel d node <> None.
Proof.
  induction fuel as [|fuel IH]; intros node d Hn; [lia|].
  simpl. unfold writeNode_body.
  destruct (getID node); try discriminate.
  destruct (getLabel node); try discriminate.
  destruct (writeString d _) as [d1 [[]|e|]]; try discriminate.
  destruct (getChildren node) as [cs| |] eqn:Hcs; try discriminate.
  apply rangeChildren_some. intros c Hc d'. apply IH.
  eapply child_fits; [eassumption|]. now rewrite (children_of_ok _ _ Hcs).
Qed.

Lemma writeNode_fuel_writeNode (fuel : nat) (node : value) (d : Marshaler W) :
  size node < fuel -> writeNode_fuel fuel d node = Some (writeNode d node).
Proof.
  intros Hn. unfold writeNode.
  rewrite (writeNode_fuel_stable fuel (S (size node))) by lia.
  destruct (writeNode_fuel (S (size node)) d node) eqn:E; [reflexivity|].
  exfalso. revert E. apply writeNode_fuel_enough. lia.
Qed.

Lemma rangeChildren_writeChildren (node : value) (cs : list value) :
  forall d : Marshaler W,
    rangeChildren (fun d c => Some (writeNode d c)) node cs d
    = Some (writeChildren node cs d).
Proof.
  induction cs as [|c cs IH]; intros d; simpl; [reflexivity|].
  destruct (writeEdge d node c) as [d1 [[]|e|]]; try reflexivity.
  destruct (writeNode d1 c) as [d2 [[]|e|]]; try reflexivity.
  apply IH.
Qed.

(** [writeNode] satisfies the equation of the source. *)
Lemma writeNode_eq (d : Marshaler W) (node : value) :
  writeNode d node =
  match getID node with
  | Ok id =>
      match getLabel node with
      | Ok label =>
          match writeString d (declaration id label) with
          | (d1, Ok _) =>
              match getChildren node with
              | Ok children => writeChildren node children d1
              | Err e => (d1, Err e)
              | Panic => (d1, Panic)
              end
          | (d1, Err e) => (d1, Err e)
          | (d1, Panic) => (d1, Panic)
          end
      | Err e => (d, Err e)
      | Panic => (d, Panic)
      end
  | Err e => (d, Err e)
  | Panic => (d, Panic)
  end.
Proof.
  assert (Hs : Some (writeNode d node)
               = writeNode_body (fun d c => Some (writeNode d c)) d node).
  { rewrite <- (writeNode_fuel_writeNode (S (size node))) by lia. simpl.
    apply writeNode_body_ext. intros c Hc d'.
    apply writeNode_fuel_writeNode.
    eapply child_fits; [|eassumption]. lia. }
  unfold writeNode_body in Hs.
  destruct (getID node); try (now injection Hs).
  destruct (getLabel node); try (now injection Hs).
  destruct (writeString d _) as [d1 [[]|e|]]; try (now injection Hs).
  destruct (getChildren node); try (now injection Hs).
  rewrite rangeChildren_writeChildren in Hs. now injection Hs.
Qed.
End Fuel.

(** ** The traversal order *)

Lemma walk_fuel_stable (f1 f2 : nat) :
  forall n : value, size n < f1 -> size n < f2 -> walk_fuel f1 n = walk_fuel f2 n.
Proof.
  revert f2. induction f1 as [|f1 IH]; intros f2 n H1 H2; [lia|].
  destruct f2 as [|f2]; [lia|]. simpl. f_equal.
  pose proof (children_smaller n) as Hs.
  induction Hs as [|c cs Hc Hcs IHcs]; simpl; [reflexivity|].
  rewrite IHcs. rewrite (IH f2 c) by lia. reflexivity.
Qed.

Lemma walk_eq (n : value) :
  walk n = Decl n :: flat_map (fun c => Edge n c :: walk c) (children n).
Proof.
  unfold walk at 1. simpl. f_equal.
  pose proof (children_smaller n) as Hs.
  induction Hs as [|c cs Hc Hcs IHcs]; simpl; [reflexivity|].
  rewrite IHcs. unfold walk at 2.
  rewrite (walk_fuel_stable (size n) (S (size c))) by lia. reflexivity.
Qed.

Lemma declared_app (l1 l2 : list event) :
  declared (l1 ++ l2) = declared l1 ++ declared l2.
Proof. unfold declared. apply flat_map_app. Qed.

Lemma reach_eq (n : value) : reach n = n :: flat_map reach (children n).
Proof.
  unfold reach at 1. rewrite walk_eq. simpl. f_equal.
  induction (children n) as [|c cs IH]; simpl; [reflexivity|].
  rewrite declared_app, IH. reflexivity.
Qed.

Lemma reach_self (n : value) : In n (reach n).
Proof. rewrite reach_eq. now left. Qed.

Lemma reach_child (n c x : value) :
  In c (children n) -> In x (reach c) -> In x (reach n).
Proof.
  intros Hc Hx. rewrite reach_eq. right. apply in_flat_map. eauto.
Qed.

Lemma reach_trans (root : value) :
  forall n x, In n (reach root) -> In x (reach n) -> In x (reach root).
Proof.
  induction root as [root IH] using tree_ind. intros n x Hn Hx.
  rewrite reach_eq in Hn. destruct Hn as [<-|Hn]; [assumption|].
  apply in_flat_map in Hn. destruct Hn as [c [Hc Hn]].
  eapply reach_child; [eassumption|]. eapply IH; eassumption.
Qed.

(** ** Failures *)

Lemma first_failure_app (l1 l2 : list (outcome unit)) :
  first_failure (l1 ++ l2) =
  match first_failure l1 with
  | Ok _ => first_failure l2
  | bad => bad
  end.
Proof.
  induction l1 as [|[[]|e|] l1 IH]; simpl; auto.
Qed.

Lemma first_failure_reach (n : value) :
  first_failure (map verdict (reach n)) =
  match verdict n with
  | Ok _ => first_failure (map verdict (flat_map reach (children n)))
  | bad => bad
  end.
Proof. rewrite reach_eq. simpl. destruct (verdict n) as [[]|e|]; reflexivity. Qed.

Lemma first_failure_ok (l : list (outcome unit)) :
  Forall (fun o => o = Ok tt) l -> first_failure l = Ok tt.
Proof. induction 1 as [|o l -> _ IH]; simpl; auto. Qed.

(** The first failure of a list whose failures are all [bad]. *)
Lemma first_failure_only (bad : outcome unit) (l : list (outcome unit)) :
  bad <> Ok tt ->
  Forall (fun o => o = Ok tt \/ o = bad) l -> In bad l ->
  first_failure l = bad.
Proof.
  intros Hbad. induction 1 as [|o l [-> | ->] _ IH]; simpl; intros Hin.
  - contradiction.
  - destruct Hin as [Hin|Hin]; [now symmetry in Hin | auto].
  - destruct bad as [[]|e|]; congruence.
Qed.

(** ** Running on a sink that accepts every write *)

Lemma getLabel_of_getID (n : value) (i : string) :
  getID n = Ok i -> exists l, getLabel n = Ok l.
Proof.
  destruct n as [[n|]|[n|]|[n|]|[n|]|[n|]|[n|]|[n|]|[n|]|[n|]|[n|]|[n|]|t];
    simpl; intros E; try discriminate; eauto.
Qed.

Section Accept.
Context {W : Type} `{Accepting W}.

Lemma writeString_accepts (d : Marshaler W) (s : string) :
  exists d', writeString d s = (d', Ok tt) /\
             contents (w d') = (contents (w d) ++ s)%string.
Proof.
  unfold writeString. destruct (Write_accepts (w d) s) as [He Hc].
  destruct (Write (w d) s) as [w' e]. simpl in *. subst e.
  eexists. split; [reflexivity | exact Hc].
Qed.

(** What a run from [d] on [n] comes to: the first failure met in
    pre-order, and, when there is none, the whole traversal rendered. *)
Let run_ok (n : value) : Prop :=
  forall d : Marshaler W,
    snd (writeNode d n) = first_failure (map verdict (reach n)) /\
    (snd (writeNode d n) = Ok tt ->
     contents (w (fst (writeNode d n)))
     = (contents (w d) ++ render (walk n))%string).

Lemma writeChildren_run (node : value) (i : string) (cs : list value) :
  getID node = Ok i ->
  (forall c, In c cs -> run_ok c) ->
  forall d : Marshaler W,
    snd (writeChildren node cs d)
    = first_failure (map verdict (flat_map reach cs)) /\
    (snd (writeChildren node cs d) = Ok tt ->
     contents (w (fst (writeChildren node cs d)))
     = (contents (w d)
        ++ render (flat_map (fun c => Edge node c :: walk c) cs))%string).
Proof.
  intros Hid. induction cs as [|c cs IH]; intros Hcs d.
  - simpl. split; [reflexivity|]. intros _. unfold render. simpl.
    now rewrite append_empty_r.
  - cbn [writeChildren flat_map]. rewrite map_app, first_failure_app.
    unfold writeEdge. rewrite Hid.
    rewrite (first_failure_reach c). unfold verdict at 1.
    destruct (getID c) as [ci| |] eqn:Hci;
      [| split; [reflexivity | discriminate] ..].
    destruct (writeString_accepts d (edgeLine i ci)) as [d1 [E1 C1]].
    rewrite E1.
    destruct (Hcs c (in_eq _ _) d1) as [Hr Hout].
    rewrite (first_failure_reach c) in Hr. unfold verdict at 1 in Hr.
    rewrite Hci in Hr.
    destruct (writeNode d1 c) as [d2 [[]|e|]] eqn:E2; simpl in Hr, Hout.
    + rewrite <- Hr.
      destruct (IH (fun c' Hc' => Hcs c' (in_cons _ _ _ Hc')) d2)
        as [Hr' Hout'].
      split; [exact Hr'|]. intros Hok. rewrite (Hout' Hok).
      rewrite (Hout eq_refl), C1.
      rewrite <- app_comm_cons, render_cons, render_app. simpl.
      rewrite Hid, Hci. simpl. now rewrite !append_assoc.
    + rewrite <- Hr. split; [reflexivity | discriminate].
    + rewrite <- Hr. split; [reflexivity | discriminate].
Qed.

Lemma writeNode_run (n : value) : run_ok n.
Proof.
  induction n as [n IH] using tree_ind. intros d.
  rewrite writeNode_eq, first_failure_reach, walk_eq. unfold verdict.
  destruct (getID n) as [i| |] eqn:Hid;
    [| split; [reflexivity | discriminate] ..].
  destruct (getLabel_of_getID _ _ Hid) as [l Hl]. rewrite Hl.
  destruct (writeString_accepts d (declaration i l)) as [d1 [E1 C1]].
  rewrite E1.
  destruct (getChildren n) as [cs| |] eqn:Hcs;
    [| split; [reflexivity | discriminate] ..].
  rewrite (children_of_ok _ _ Hcs) in *.
  destruct (writeChildren_run n i cs Hid IH d1) as [Hr Hout].
  split; [exact Hr|]. intros Hok. rewrite (Hout Hok), C1.
  rewrite render_cons. simpl. rewrite Hid, Hl. simpl.
  now rewrite append_assoc.
Qed.
End Accept.

(** ** Two sinks side by side *)

Section Simulation.
Context {W1 : Type} `{Accepting W1} {W2 : Type} `{Accepting W2}.

(** Two runs on the same node end alike and append the same text. *)
Let sim_ok (n : value) : Prop :=
  forall (d1 : Marshaler W1) (d2 : Marshaler W2),
    snd (writeNode d1 n) = snd (writeNode d2 n) /\
    exists out : string,
      contents (w (fst (writeNode d1 n))) = (contents (w d1) ++ out)%string /\
      contents (w (fst (writeNode d2 n))) = (contents (w d2) ++ out)%string.

Lemma writeChildren_sim (node : value) (cs : list value) :
  (forall c, In c cs -> sim_ok c) ->
  forall (d1 : Marshaler W1) (d2 : Marshaler W2),
    snd (writeChildren node cs d1) = snd (writeChildren node cs d2) /\
    exists out : string,
      contents (w (fst (writeChildren node cs d1)))
      = (contents (w d1) ++ out)%string /\
      contents (w (fst (writeChildren node cs d2)))
      = (contents (w d2) ++ out)%string.
Proof.
  induction cs as [|c cs IH]; intros Hcs d1 d2.
  - simpl. split; [reflexivity|]. exists EmptyString.
    now rewrite !append_empty_r.
  - cbn [writeChildren]. unfold writeEdge.
    destruct (getID node) as [i| |];
      [| split; [reflexivity | exists EmptyString;
                                 now rewrite !append_empty_r] ..].
    destruct (getID c) as [ci| |];
      [| split; [reflexivity | exists EmptyString;
                                 now rewrite !append_empty_r] ..].
    destruct (writeString_accepts d1 (edgeLine i ci)) as [e1 [E1 C1]].
    destruct (writeString_accepts d2 (edgeLine i ci)) as [e2 [E2 C2]].
    rewrite E1, E2.
    destruct (Hcs c (in_eq _ _) e1 e2) as [Hs [out [O1 O2]]].
    destruct (writeNode e1 c) as [f1 o1], (writeNode e2 c) as [f2 o2].
    simpl in Hs, O1, O2. subst o2.
    destruct o1 as [[]|e|].
    + destruct (IH (fun c' Hc' => Hcs c' (in_cons _ _ _ Hc')) f1 f2)
        as [Hs' [out' [O1' O2']]].
      split; [exact Hs'|]. exists (edgeLine i ci ++ out ++ out')%string.
      rewrite O1', O2', O1, O2, C1, C2. now rewrite !append_assoc.
    + split; [reflexivity|]. exists (edgeLine i ci ++ out)%string.
      simpl. rewrite O1, O2, C1, C2. now rewrite !append_assoc.
    + split; [reflexivity|]. exists (edgeLine i ci ++ out)%string.
      simpl. rewrite O1, O2, C1, C2. now rewrite !append_assoc.
Qed.

Lemma writeNode_sim (n : value) : sim_ok n.
Proof.
  induction n as [n IH] using tree_ind. intros d1 d2.
  rewrite !writeNode_eq.
  destruct (getID n) as [i| |] eqn:Hid;
    [| split; [reflexivity | exists EmptyString;
                               now rewrite !append_empty_r] ..].
  destruct (getLabel_of_getID _ _ Hid) as [l Hl]. rewrite Hl.
  destruct (writeString_accepts d1 (declaration i l)) as [e1 [E1 C1]].
  destruct (writeString_accepts d2 (declaration i l)) as [e2 [E2 C2]].
  rewrite E1, E2.
  destruct (getChildren n) as [cs| |] eqn:Hcs;
    [| split; [reflexivity | exists (declaration i l); now simpl] ..].
  rewrite (children_of_ok _ _ Hcs) in IH.
  destruct (writeChildren_sim n cs IH e1 e2) as [Hs [out [O1 O2]]].
  split; [exact Hs|]. exists (declaration i l ++ out)%string.
  rewrite O1, O2, C1, C2. now rewrite !append_assoc.
Qed.
End Simulation.

(** A run only appends to the sink. *)
Lemma writeNode_appends {W : Type} `{Accepting W} (d : Marshaler W) (n : value) :
  exists out : string,
    contents (w (fst (writeNode d n))) = (contents (w d) ++ out)%string.
Proof.
  destruct (writeNode_sim n d d) as [_ [out [O _]]]. now exists out.
Qed.

(** ** Verdicts of single nodes *)

Lemma node_ok_verdict (n : value) : node_ok n = true -> verdict n = Ok tt.
Proof.
  unfold node_ok, verdict.
  destruct n as [[n|]|[n|]|[n|]|[n|]|[n|]|[n|]|[n|]|[n|]|[n|]|[n|]|[n|]|t];
    simpl; try discriminate; try reflexivity.
  - destruct (ScalarComparison_Op n); [reflexivity | discriminate].
  - destruct (ArrayComparison_Op n); [reflexivity | discriminate].
  - destruct (Array_Strings (ref_val n)); reflexivity.
  - unfold populated.
    destruct (Primary_Ident n), (Primary_Number n), (Primary_String n),
      (Primary_SubExpression n); simpl; try reflexivity; discriminate.
Qed.

Lemma empty_Primary_verdict (n : value) :
  empty_Primary n = true -> verdict n = Err empty_primary.
Proof.
  unfold verdict.
  destruct n as [[n|]|[n|]|[n|]|[n|]|[n|]|[n|]|[n|]|[n|]|[n|]|[n|]|[n|]|t];
    simpl; try discriminate.
  unfold populated.
  destruct (Primary_Ident n), (Primary_Number n), (Primary_String n),
    (Primary_SubExpression n); simpl; try discriminate; reflexivity.
Qed.

Lemma missing_operator_verdict (n : value) :
  missing_operator n = true -> verdict n = Panic.
Proof.
  unfold verdict.
  destruct n as [[n|]|[n|]|[n|]|[n|]|[n|]|[n|]|[n|]|[n|]|[n|]|[n|]|[n|]|t];
    simpl; try discriminate.
  - destruct (ScalarComparison_Op n); [discriminate | reflexivity].
  - destruct (ArrayComparison_Op n); [discriminate | reflexivity].
Qed.

(** A node fails on its own account only by a panic, unless it is a
    foreign value or an empty [Primary]. *)
Lemma verdict_cases (n : value) :
  foreign n = false -> empty_Primary n = false ->
  verdict n = Ok tt \/ verdict n = Panic.
Proof.
  unfold verdict.
  destruct n as [[n|]|[n|]|[n|]|[n|]|[n|]|[n|]|[n|]|[n|]|[n|]|[n|]|[n|]|t];
    simpl; try discriminate; auto.
  - destruct (ScalarComparison_Op n); auto.
  - destruct (ArrayComparison_Op n); auto.
  - destruct (Array_Strings (ref_val n)); auto.
  - unfold populated.
    destruct (Primary_Ident n), (Primary_Number n), (Primary_String n),
      (Primary_SubExpression n); simpl; auto; discriminate.
Qed.

Lemma children_closed (n : value) :
  Forall (fun c => foreign c = false) (children n).
Proof.
  unfold children.
  destruct n as [[n|]|[n|]|[n|]|[n|]|[n|]|[n|]|[n|]|[n|]|[n|]|[n|]|[n|]|t];
    simpl; try apply Forall_nil.
  all: try (destruct n; simpl in *; break_node; simpl; forall_list;
            reflexivity).
  destruct n as [a [p ss ns]]; simpl. destruct ss; forall_list; reflexivity.
Qed.

Lemma reach_closed (root : value) :
  foreign root = false -> Forall (fun n => foreign n = false) (reach root).
Proof.
  induction root as [root IH] using tree_ind. intros Hroot.
  rewrite reach_eq. constructor; [assumption|].
  apply Forall_flat_map. pose proof (children_closed root) as Hc.
  rewrite Forall_forall in *. intros c Hin. apply IH; auto.
Qed.

Lemma reachable_reach (root n : value) : reachable root n <-> In n (reach root).
Proof.
  split.
  - induction 1 as [|n c _ IH Hc]; [apply reach_self|].
    eapply reach_trans; [exact IH|]. eapply reach_child; [exact Hc|].
    apply reach_self.
  - revert n. induction root as [root IH] using tree_ind. intros n Hn.
    rewrite reach_eq in Hn. destruct Hn as [<-|Hn]; [constructor|].
    apply in_flat_map in Hn. destruct Hn as [c [Hc Hn]].
    specialize (IH c Hc n Hn).
    clear Hn. induction IH as [|m k _ IHm Hk].
    + econstructor; [constructor | exact Hc].
    + econstructor; [exact IHm | exact Hk].
Qed.

(** ** Whole documents *)

Section Documents.
Context {W : Type} `{Accepting W}.

Lemma MarshalRule_run (d : Marshaler W) (r : Rule) :
  snd (MarshalRule d (Some r))
  = first_failure (map verdict (reach (root_of r))) /\
  (snd (MarshalRule d (Some r)) = Ok tt ->
   contents (w (fst (MarshalRule d (Some r))))
   = (contents (w d) ++ ("digraph {" ++ nl)
      ++ render (walk (root_of r)) ++ ("}" ++ nl))%string) /\
  exists out : string,
    contents (w (fst (MarshalRule d (Some r))))
    = (contents (w d) ++ ("digraph {" ++ nl) ++ out)%string.
Proof.
  unfold MarshalRule.
  destruct (writeString_accepts d ("digraph {" ++ nl)) as [d1 [E1 C1]].
  rewrite E1. fold (root_of r).
  destruct (writeNode_run (root_of r) d1) as [Hr Hout].
  destruct (writeNode_appends d1 (root_of r)) as [out Happ].
  destruct (writeNode d1 (root_of r)) as [d2 [[]|e|]]; cbn [fst snd] in *.
  - destruct (writeString_accepts d2 ("}" ++ nl)) as [d3 [E3 C3]].
    rewrite E3. cbn [fst snd]. split; [exact Hr|]. split.
    + intros _. rewrite C3, (Hout eq_refl), C1. now rewrite !append_assoc.
    + exists (out ++ ("}" ++ nl))%string. rewrite C3, Happ, C1.
      now rewrite !append_assoc.
  - split; [exact Hr|]. split; [discriminate|].
    exists out. rewrite Happ, C1. now rewrite !append_assoc.
  - split; [exact Hr|]. split; [discriminate|].
    exists out. rewrite Happ, C1. now rewrite !append_assoc.
Qed.
End Documents.

(** ** Lines of a document *)

Lemma split_lines_nl_nonempty (x : string) : split_lines (x ++ nl) <> [].
Proof.
  induction x as [|a x IH]; simpl; [discriminate|].
  destruct (Ascii.eqb a (ascii_of_nat 10)); [discriminate|].
  destruct (split_lines (x ++ nl)); discriminate.
Qed.

Lemma split_lines_app (x y : string) :
  split_lines ((x ++ nl) ++ y) = split_lines (x ++ nl) ++ split_lines y.
Proof.
  induction x as [|a x IH]; [reflexivity|].
  cbn [append split_lines]. fold nl.
  destruct (Ascii.eqb a (ascii_of_nat 10)).
  - rewrite IH. reflexivity.
  - rewrite IH. pose proof (split_lines_nl_nonempty x) as Hne.
    destruct (split_lines (x ++ nl)); [contradiction | reflexivity].
Qed.

Lemma render_ends_with_newline (evs : list event) :
  evs <> [] -> exists y, render evs = (y ++ nl)%string.
Proof.
  induction evs as [|e evs IH]; [contradiction|]. intros _.
  rewrite render_cons. destruct evs as [|e' evs].
  - unfold render; simpl. rewrite append_empty_r.
    destruct e; simpl; unfold declaration, edgeLine; eexists;
      repeat rewrite <- append_assoc; reflexivity.
  - destruct IH as [y Hy]; [discriminate|]. rewrite Hy.
    exists (render_event e ++ y)%string. now rewrite append_assoc.
Qed.

(** ** The rule [a == 1] *)

(** C1, as stated: the document of [a == 1] would hold 11 node
    declarations and 10 edges.  It does not: the two [Primary] nodes are
    declared as well. *)
Lemma a_eq_1_not_11_nodes_10_edges :
  ~ (count_declarations Example_a_eq_1.document = 11 /\
     count_edges Example_a_eq_1.document = 10).
Proof. vm_compute. intros [E _]. discriminate E. Qed.

(** C1, amended: serialising the tree of [a == 1] succeeds and gives a
    document of 13 node declarations and 12 edges; the declared nodes
    are, in order, BooleanExpression, Expression, Comparison, the left
    BitOperation, Unary and Primary, the identifier leaf [Ident\na],
    ScalarComparison, the operator node [Op\n==], the right BitOperation,
    Unary and Primary, and the number leaf [Number\n1]. *)
Theorem a_eq_1_document :
  snd Example_a_eq_1.run = Ok tt /\
  count_declarations Example_a_eq_1.document = 13 /\
  count_edges Example_a_eq_1.document = 12 /\
  map getLabel (declared (walk (root_of Example_a_eq_1.rule)))
  = [Ok "BooleanExpression"; Ok "Expression"; Ok "Comparison";
     Ok "BitOperation"; Ok "Unary"; Ok "Primary"; Ok "Ident\na";
     Ok "ScalarComparison"; Ok "Op\n==";
     Ok "BitOperation"; Ok "Unary"; Ok "Primary"; Ok "Number\n1"] /\
  Example_a_eq_1.document
  = (("digraph {" ++ nl) ++ render (walk (root_of Example_a_eq_1.rule))
     ++ ("}" ++ nl))%string.
Proof. vm_compute. repeat split. Qed.

(** ** Arrays *)

Lemma concat_cons_sep (sep x : string) (l : list string) :
  String.concat sep (x :: l)
  = (x ++ String.concat EmptyString (map (fun s => sep ++ s) l))%string.
Proof.
  revert x. induction l as [|y l IH]; intros x.
  - simpl. now rewrite append_empty_r.
  - change (String.concat sep (x :: y :: l))
      with (x ++ sep ++ String.concat sep (y :: l))%string.
    rewrite IH, map_cons, concat_empty_cons. now rewrite !append_assoc.
Qed.

Lemma joinNumbers_next (l : list Z) :
  forall (i : nat) (s : string),
    joinNumbers (S i) s l
    = (s ++ String.concat EmptyString
              (map (fun n => ", " ++ itoa n) l))%string.
Proof.
  induction l as [|n l IH]; intros i s.
  - simpl. now rewrite append_empty_r.
  - cbn [joinNumbers Nat.eqb]. rewrite IH, map_cons, concat_empty_cons.
    now rewrite !append_assoc.
Qed.

Lemma joinNumbers_concat (l : list Z) :
  joinNumbers 0 EmptyString l = String.concat ", " (map itoa l).
Proof.
  destruct l as [|n l]; [reflexivity|].
  cbn [joinNumbers Nat.eqb]. rewrite joinNumbers_next.
  rewrite map_cons, concat_cons_sep, map_map. reflexivity.
Qed.

(** C2, as stated: the label of the synthetic child of an [Array] of
    integers would be its elements joined by a comma.  For the integers
    1 and 2 the code gives [1, 2], with a space. *)
Lemma Array_numbers_label_not_comma_joined :
  map getLabel (children (VArray (Some Example_a_in_xy.numbers)))
  <> [Ok (spec_Array_label (ref_val Example_a_in_xy.numbers))].
Proof. vm_compute. intros E. inversion E. Qed.

Lemma getChildren_Array_eq (r : ref Array) :
  getChildren (VArray (Some r))
  = Ok [VNode (Some (newNode ("Array" ++ fmt_p (Some r))
                             (Array_label (ref_val r))))].
Proof.
  destruct r as [a [p ss ns]]. unfold Array_label. simpl.
  destruct ss; [|reflexivity]. now rewrite joinNumbers_concat.
Qed.

(** C2, amended: an [Array] has a single synthetic child, labelled with
    its strings joined by a comma when it holds strings, and otherwise
    with its integers in decimal joined by a comma and a space; the
    strings [x] and [y] give the label [x,y]. *)
Theorem getChildren_Array :
  (forall r : ref Array,
      getChildren (VArray (Some r))
      = Ok [VNode (Some (newNode ("Array" ++ fmt_p (Some r))
                                 (Array_label (ref_val r))))]) /\
  map getLabel (children (VArray (Some Example_a_in_xy.array)))
  = [Ok "x,y"].
Proof.
  split; [exact getChildren_Array_eq | reflexivity].
Qed.

Lemma Array_verdicts (r : ref Array) :
  Forall (fun n => verdict n = Ok tt) (reach (VArray (Some r))).
Proof.
  rewrite reach_eq. unfold children. rewrite getChildren_Array_eq.
  cbn [flat_map]. rewrite reach_eq. cbn [children getChildren flat_map app].
  constructor; [|constructor; [reflexivity | constructor]].
  unfold verdict. rewrite getChildren_Array_eq. reflexivity.
Qed.

(** C10: the marshaler does not defend the invariant of [Array].  When
    the strings are not empty the child is built from them, whatever the
    integers; when both lists are empty the child is labelled with the
    empty string; and in every case writing the [Array] succeeds. *)
Theorem Array_invariant_not_defended {W : Type} `{Accepting W}
    (d : Marshaler W) (r : ref Array) :
  (Array_Strings (ref_val r) <> [] ->
   getChildren (VArray (Some r))
   = Ok [VNode (Some (newNode ("Array" ++ fmt_p (Some r))
                        (String.concat "," (Array_Strings (ref_val r)))))]) /\
  (Array_Strings (ref_val r) = [] -> Array_Numbers (ref_val r) = [] ->
   getChildren (VArray (Some r))
   = Ok [VNode (Some (newNode ("Array" ++ fmt_p (Some r)) EmptyString))]) /\
  snd (writeNode d (VArray (Some r))) = Ok tt.
Proof.
  split; [|split].
  - destruct r as [a [p ss ns]]. simpl.
    destruct ss; [congruence | reflexivity].
  - destruct r as [a [p ss ns]]. simpl. intros -> ->. reflexivity.
  - destruct (writeNode_run (VArray (Some r)) d) as [Hr _].
    rewrite Hr. apply first_failure_ok. rewrite Forall_map.
    apply Array_verdicts.
Qed.

Lemma Array_invariant_not_defended_witness :
  Array_Strings (ref_val Example_a_in_xy.both) <> [] /\
  Array_Numbers (ref_val Example_a_in_xy.both) <> [] /\
  map getLabel (children (VArray (Some Example_a_in_xy.both))) = [Ok "x"] /\
  map getLabel (children (VArray (Some Example_a_in_xy.neither)))
  = [Ok EmptyString].
Proof.
  split; [discriminate|]. split; [discriminate|]. split.
  - unfold children.
    rewrite (proj1 (Array_invariant_not_defended
                      (NewMarshaler EmptyString) Example_a_in_xy.both));
      [reflexivity | discriminate].
  - unfold children.
    rewrite (proj1 (proj2 (Array_invariant_not_defended
                             (NewMarshaler EmptyString)
                             Example_a_in_xy.neither)));
      reflexivity.
Defined.

(** ** Well-formed and malformed trees *)

Lemma Forall_orb {A : Type} (f g : A -> bool) (l : list A) :
  forallb (fun x => f x || g x) l = true ->
  Forall (fun x => f x = true \/ g x = true) l.
Proof.
  rewrite forallb_forall, Forall_forall. intros Hl x Hx.
  apply orb_prop. now apply Hl.
Qed.

Lemma Exists_existsb {A : Type} (f : A -> bool) (l : list A) :
  existsb f l = true -> Exists (fun x => f x = true) l.
Proof. rewrite existsb_exists, Exists_exists. trivial. Qed.

Lemma Forall_negb {A : Type} (f : A -> bool) (l : list A) :
  forallb (fun x => negb (f x)) l = true -> Forall (fun x => f x = false) l.
Proof.
  rewrite forallb_forall, Forall_forall. intros Hl x Hx.
  apply negb_true_iff. now apply Hl.
Qed.

Lemma Forall_forallb {A : Type} (f : A -> bool) (l : list A) :
  forallb f l = true -> Forall (fun x => f x = true) l.
Proof. rewrite forallb_forall, Forall_forall. trivial. Qed.

(** C3: for a well-formed tree and a sink that accepts every write,
    [MarshalRule] succeeds; what it writes is the line [digraph {], the
    traversal, and the line [}], and on a sink that was empty the
    document begins with the line [digraph {] and ends with the line
    [}]. *)
Theorem MarshalRule_well_formed {W : Type} `{Accepting W}
    (d : Marshaler W) (r : Rule) :
  well_formed_rule r = true ->
  snd (MarshalRule d (Some r)) = Ok tt /\
  contents (w (fst (MarshalRule d (Some r))))
  = (contents (w d) ++ ("digraph {" ++ nl)
     ++ render (walk (root_of r)) ++ ("}" ++ nl))%string /\
  (contents (w d) = EmptyString ->
   hd EmptyString (split_lines (contents (w (fst (MarshalRule d (Some r))))))
   = "digraph {" /\
   last (split_lines (contents (w (fst (MarshalRule d (Some r))))))
     EmptyString = "}").
Proof.
  intros Hwf. destruct (MarshalRule_run d r) as [Hr [Hout _]].
  assert (Hok : snd (MarshalRule d (Some r)) = Ok tt).
  { rewrite Hr. apply first_failure_ok. rewrite Forall_map.
    unfold well_formed_rule, well_formed in Hwf.
    rewrite forallb_forall in Hwf. rewrite Forall_forall.
    intros n Hn. apply node_ok_verdict. now apply Hwf. }
  split; [exact Hok|]. split; [exact (Hout Hok)|].
  intros Hempty. rewrite (Hout Hok), Hempty.
  destruct (render_ends_with_newline (walk (root_of r))) as [y Hy].
  { rewrite walk_eq. discriminate. }
  rewrite Hy. split; [reflexivity|].
  change (EmptyString ++ ("digraph {" ++ nl) ++ (y ++ nl) ++ "}" ++ nl)%string
    with (("digraph {" ++ nl) ++ (y ++ nl) ++ "}" ++ nl)%string.
  rewrite <- append_assoc, <- (append_assoc _ y nl).
  rewrite split_lines_app.
  change (split_lines ("}" ++ nl)) with ["}"].
  apply last_last.
Qed.

Lemma MarshalRule_well_formed_witness :
  well_formed_rule Example_a_eq_1.rule = true /\
  snd (MarshalRule (NewMarshaler EmptyString) (Some Example_a_eq_1.rule))
  = Ok tt.
Proof.
  split; [reflexivity|].
  apply (MarshalRule_well_formed (NewMarshaler EmptyString)
           Example_a_eq_1.rule).
  reflexivity.
Defined.

(** ** Values outside the closed set *)

(** C5: a value that is none of the ten kinds of node and no synthetic
    node has no identifier and no children, and writing it aborts with
    the error [unsupported node type] before anything reaches the
    sink, whatever the sink. *)
Theorem writeNode_foreign {W : Type} `{Writer W}
    (d : Marshaler W) (t : string) :
  getID (VOther t) = Err (Errorf ("unsupported node type: " ++ t)) /\
  getChildren (VOther t) = Err (Errorf ("unsupported node type: " ++ t)) /\
  writeNode d (VOther t) = (d, Err (Errorf ("unsupported node type: " ++ t))).
Proof. rewrite writeNode_eq. repeat split. Qed.

(** ** Declarations of original nodes *)

Lemma writeChildren_appends {W : Type} `{Accepting W}
    (node : value) (cs : list value) (d : Marshaler W) :
  exists out : string,
    contents (w (fst (writeChildren node cs d))) = (contents (w d) ++ out)%string.
Proof.
  destruct (writeChildren_sim node cs (fun c _ => writeNode_sim c) d d)
    as [_ [out [O _]]].
  now exists out.
Qed.

Lemma getID_node_key (n : value) (k : kind) (off : Z) :
  node_key n = Some (k, off) ->
  getID n = Ok (kind_name k ++ itoa off)%string /\
  getLabel n = Ok (kind_name k).
Proof.
  destruct n as [[n|]|[n|]|[n|]|[n|]|[n|]|[n|]|[n|]|[n|]|[n|]|[n|]|[n|]|t];
    simpl; intros E; try discriminate; injection E as <- <-;
    split; reflexivity.
Qed.

(** C6: an original node is declared under the name of its variant
    followed by its source offset in decimal, and labelled with the name
    of its variant alone; its declaration is the first thing that
    writing it sends to the sink. *)
Theorem original_node_declaration {W : Type} `{Accepting W}
    (d : Marshaler W) (n : value) (k : kind) (off : Z) :
  node_key n = Some (k, off) ->
  getID n = Ok (kind_name k ++ itoa off)%string /\
  getLabel n = Ok (kind_name k) /\
  exists rest : string,
    contents (w (fst (writeNode d n)))
    = (contents (w d)
       ++ declaration (kind_name k ++ itoa off) (kind_name k) ++ rest)%string.
Proof.
  intros Hk. destruct (getID_node_key n k off Hk) as [Hid Hl].
  split; [exact Hid|]. split; [exact Hl|].
  rewrite writeNode_eq, Hid, Hl.
  destruct (writeString_accepts d
              (declaration (kind_name k ++ itoa off) (kind_name k)))
    as [d1 [E1 C1]].
  rewrite E1.
  destruct (getChildren n) as [cs| |].
  - destruct (writeChildren_appends n cs d1) as [out Hout].
    exists out. rewrite Hout, C1. now rewrite append_assoc.
  - exists EmptyString. simpl. now rewrite C1, append_empty_r.
  - exists EmptyString. simpl. now rewrite C1, append_empty_r.
Qed.

Lemma original_node_declaration_witness :
  node_key Example_Comparison17.comparison = Some (KComparison, 17%Z) /\
  getID Example_Comparison17.comparison = Ok "Comparison17" /\
  getLabel Example_Comparison17.comparison = Ok "Comparison".
Proof.
  split; [reflexivity|].
  destruct (original_node_declaration (NewMarshaler EmptyString)
              Example_Comparison17.comparison KComparison 17%Z eq_refl)
    as [Hid [Hl _]].
  split; [exact Hid | exact Hl].
Defined.

(** ** Two runs *)

(** C7: two runs of [MarshalRule] on the same tree, each into a sink of
    its own that accepts every write, end alike and append the same
    bytes to their sinks. *)
Theorem MarshalRule_deterministic {W1 : Type} `{Accepting W1}
    {W2 : Type} `{Accepting W2}
    (d1 : Marshaler W1) (d2 : Marshaler W2) (r : option Rule) :
  snd (MarshalRule d1 r) = snd (MarshalRule d2 r) /\
  exists out : string,
    contents (w (fst (MarshalRule d1 r))) = (contents (w d1) ++ out)%string /\
    contents (w (fst (MarshalRule d2 r))) = (contents (w d2) ++ out)%string.
Proof.
  unfold MarshalRule.
  destruct (writeString_accepts d1 ("digraph {" ++ nl)) as [e1 [E1 C1]].
  destruct (writeString_accepts d2 ("digraph {" ++ nl)) as [e2 [E2 C2]].
  rewrite E1, E2. destruct r as [r|].
  - destruct (writeNode_sim (VBooleanExpression (Rule_BooleanExpression r))
                e1 e2) as [Hs [out [O1 O2]]].
    destruct (writeNode e1 _) as [f1 o1], (writeNode e2 _) as [f2 o2].
    cbn [fst snd] in Hs, O1, O2. subst o2. destruct o1 as [[]|e|].
    + destruct (writeString_accepts f1 ("}" ++ nl)) as [g1 [G1 K1]].
      destruct (writeString_accepts f2 ("}" ++ nl)) as [g2 [G2 K2]].
      rewrite G1, G2. split; [reflexivity|].
      exists (("digraph {" ++ nl) ++ out ++ ("}" ++ nl))%string.
      cbn [fst]. rewrite K1, K2, O1, O2, C1, C2. now rewrite !append_assoc.
    + split; [reflexivity|]. exists (("digraph {" ++ nl) ++ out)%string.
      cbn [fst]. rewrite O1, O2, C1, C2. now rewrite !append_assoc.
    + split; [reflexivity|]. exists (("digraph {" ++ nl) ++ out)%string.
      cbn [fst]. rewrite O1, O2, C1, C2. now rewrite !append_assoc.
  - split; [reflexivity|]. exists ("digraph {" ++ nl)%string.
    cbn [fst]. now rewrite C1, C2.
Qed.

(** ** Comparisons without operator or operand *)

Lemma missing_operand_child (n : value) :
  missing_operator n = false -> missing_operand n = true ->
  In (VBitOperation None) (children n).
Proof.
  unfold children.
  destruct n as [[n|]|[n|]|[n|]|[n|]|[n|]|[n|]|[n|]|[n|]|[n|]|[n|]|[n|]|t];
    simpl; try discriminate.
  destruct (ScalarComparison_Op n); simpl; [|discriminate].
  destruct (ScalarComparison_Next n); simpl; [discriminate|].
  intros _ _. right. now left.
Qed.

(** ** Identifiers are told apart *)

Lemma itoa_inj (z1 z2 : Z) : itoa z1 = itoa z2 -> z1 = z2.
Proof.
  unfold itoa. intros E. apply DecimalZ.to_int_inj.
  assert (Hn : forall z, Z.to_int z <> Decimal.Pos Decimal.Nil /\
                         Z.to_int z <> Decimal.Neg Decimal.Nil).
  { intros [|p|p]; simpl; split; try discriminate;
      intros [= Hp]; now apply (DecimalPos.Unsigned.to_uint_nonnil p). }
  pose proof (DecimalString.NilZero.isi (Z.to_int z1)
                (proj1 (Hn z1)) (proj2 (Hn z1))) as H1.
  pose proof (DecimalString.NilZero.isi (Z.to_int z2)
                (proj1 (Hn z2)) (proj2 (Hn z2))) as H2.
  rewrite E in H1. congruence.
Qed.

Lemma fmt_addr_inj (a1 a2 : addr) :
  fmt_addr (Npos a1) = fmt_addr (Npos a2) -> a1 = a2.
Proof.
  unfold fmt_addr. simpl. intros [= E].
  apply HexadecimalPos.Unsigned.to_uint_inj.
  pose proof (HexadecimalString.NilZero.usu (Pos.to_hex_uint a1)
                (HexadecimalPos.Unsigned.to_uint_nonnil a1)) as H1.
  pose proof (HexadecimalString.NilZero.usu (Pos.to_hex_uint a2)
                (HexadecimalPos.Unsigned.to_uint_nonnil a2)) as H2.
  rewrite E in H1. congruence.
Qed.

Lemma itoa_no_letter (z : Z) :
  take_letters (itoa z) = EmptyString /\ drop_letters (itoa z) = itoa z.
Proof.
  unfold itoa. destruct (Z.to_int z) as [u|u]; simpl;
    destruct u; split; reflexivity.
Qed.

Lemma itoa_not_address (z : Z) (a : N) : itoa z <> fmt_addr a.
Proof.
  unfold itoa, fmt_addr. intros E.
  assert (Hn : Z.to_int z <> Decimal.Pos Decimal.Nil /\
               Z.to_int z <> Decimal.Neg Decimal.Nil).
  { destruct z as [|p|p]; simpl; split; try discriminate;
      intros [= Hp]; now apply (DecimalPos.Unsigned.to_uint_nonnil p). }
  pose proof (DecimalString.NilZero.isi (Z.to_int z) (proj1 Hn) (proj2 Hn))
    as Hi.
  rewrite E in Hi. simpl in Hi.
  unfold DecimalString.NilZero.uint_of_string in Hi. simpl in Hi.
  destruct (DecimalString.NilEmpty.uint_of_string _) in Hi; discriminate.
Qed.

Lemma letters_kind (k : kind) (rest : string) :
  take_letters rest = EmptyString -> drop_letters rest = rest ->
  take_letters (kind_name k ++ rest) = kind_name k /\
  drop_letters (kind_name k ++ rest) = rest.
Proof.
  intros H1 H2. destruct k; simpl; rewrite ?H1, ?H2; split; reflexivity.
Qed.

Lemma letters_synthetic (s : synthetic) (rest : string) :
  take_letters rest = EmptyString -> drop_letters rest = rest ->
  take_letters (synthetic_name s ++ rest) = synthetic_name s /\
  drop_letters (synthetic_name s ++ rest) = rest.
Proof.
  intros H1 H2. destruct s; simpl; rewrite ?H1, ?H2; split; reflexivity.
Qed.

Lemma fmt_addr_no_letter (a : N) :
  take_letters (fmt_addr a) = EmptyString /\
  drop_letters (fmt_addr a) = fmt_addr a.
Proof. split; reflexivity. Qed.

Lemma kind_name_inj (k1 k2 : kind) : kind_name k1 = kind_name k2 -> k1 = k2.
Proof. destruct k1, k2; intros E; try reflexivity; discriminate E. Qed.

Lemma synthetic_name_inj (s1 s2 : synthetic) :
  synthetic_name s1 = synthetic_name s2 -> s1 = s2.
Proof. destruct s1, s2; intros E; try reflexivity; discriminate E. Qed.

Lemma position_id_inj (p1 p2 : kind * Z) :
  position_id p1 = position_id p2 -> p1 = p2.
Proof.
  destruct p1 as [k1 o1], p2 as [k2 o2]. unfold position_id. simpl.
  intros E.
  destruct (itoa_no_letter o1) as [A1 B1], (itoa_no_letter o2) as [A2 B2].
  destruct (letters_kind k1 (itoa o1) A1 B1) as [T1 D1].
  destruct (letters_kind k2 (itoa o2) A2 B2) as [T2 D2].
  rewrite E in T1, D1. f_equal.
  - apply kind_name_inj. congruence.
  - apply itoa_inj. congruence.
Qed.

Lemma instance_id_inj (t1 t2 : synthetic * addr) :
  instance_id t1 = instance_id t2 -> t1 = t2.
Proof.
  destruct t1 as [s1 a1], t2 as [s2 a2]. unfold instance_id. simpl.
  intros E.
  destruct (fmt_addr_no_letter (Npos a1)) as [A1 B1].
  destruct (fmt_addr_no_letter (Npos a2)) as [A2 B2].
  destruct (letters_synthetic s1 _ A1 B1) as [T1 D1].
  destruct (letters_synthetic s2 _ A2 B2) as [T2 D2].
  rewrite E in T1, D1. f_equal.
  - apply synthetic_name_inj. congruence.
  - apply fmt_addr_inj. congruence.
Qed.

Lemma position_id_not_instance_id (p : kind * Z) (t : synthetic * addr) :
  position_id p <> instance_id t.
Proof.
  destruct p as [k o], t as [s a]. unfold position_id, instance_id. simpl.
  intros E.
  destruct (itoa_no_letter o) as [A1 B1].
  destruct (fmt_addr_no_letter (Npos a)) as [A2 B2].
  destruct (letters_kind k (itoa o) A1 B1) as [T1 D1].
  destruct (letters_synthetic s _ A2 B2) as [T2 D2].
  rewrite E in T1, D1.
  apply (itoa_not_address o (Npos a)). congruence.
Qed.

(** ** Identifiers along the traversal *)

Lemma original_ids (l : list value) :
  map node_id (filter is_original l)
  = map position_id (flat_map (fun v => option_list (node_key v)) l).
Proof.
  induction l as [|n l IH]; [reflexivity|].
  cbn [filter flat_map]. rewrite map_app, <- IH.
  unfold is_original at 1.
  destruct (node_key n) as [[k off]|] eqn:Hk; [|reflexivity].
  cbn [is_some option_list map app filter]. f_equal.
  unfold node_id, position_id.
  now rewrite (proj1 (getID_node_key n k off Hk)).
Qed.

Lemma synthetic_children_ids (m : value) :
  map node_id (filter is_synthetic (children m))
  = map instance_id (instance_tags m).
Proof.
  unfold children.
  destruct m as [[n|]|[n|]|[n|]|[n|]|[n|]|[n|]|[n|]|[n|]|[n|]|[n|]|[n|]|t];
    try reflexivity.
  all: try (destruct n; simpl in *; break_node; reflexivity).
  destruct n as [a [p ss ns]]; simpl. destruct ss; reflexivity.
Qed.

Lemma filter_flat_map {A B : Type} (p : B -> bool) (f : A -> list B)
    (l : list A) :
  filter p (flat_map f l) = flat_map (fun x => filter p (f x)) l.
Proof.
  induction l as [|x l IH]; [reflexivity|]. simpl.
  now rewrite filter_app, IH.
Qed.

Lemma flat_map_flat_map {A B C : Type} (f : A -> list B) (g : B -> list C)
    (l : list A) :
  flat_map g (flat_map f l) = flat_map (fun x => flat_map g (f x)) l.
Proof.
  induction l as [|x l IH]; [reflexivity|]. simpl.
  now rewrite flat_map_app, IH.
Qed.

Lemma map_of_flat_map {A B C : Type} (f : B -> C) (g : A -> list B)
    (l : list A) :
  map f (flat_map g l) = flat_map (fun x => map f (g x)) l.
Proof.
  induction l as [|x l IH]; [reflexivity|]. simpl.
  now rewrite map_app, IH.
Qed.

Lemma flat_map_singleton_filter {A : Type} (p : A -> bool) (l : list A) :
  flat_map (fun x => filter p [x]) l = filter p l.
Proof.
  induction l as [|x l IH]; [reflexivity|].
  change (filter p [x] ++ flat_map (fun y => filter p [y]) l
          = filter p (x :: l)).
  rewrite IH. simpl. destruct (p x); reflexivity.
Qed.

Lemma flat_map_ext_in {A B : Type} (f g : A -> list B) (l : list A) :
  (forall x, In x l -> f x = g x) -> flat_map f l = flat_map g l.
Proof.
  induction l as [|x l IH]; intros E; [reflexivity|]. simpl.
  rewrite (E x (in_eq _ _)), IH; [reflexivity|].
  intros y Hy. apply E. now right.
Qed.

Lemma flat_map_split {A B : Type} (f g h : A -> list B) (l : list A) :
  (forall x, In x l -> Permutation (f x) (g x ++ h x)) ->
  Permutation (flat_map f l) (flat_map g l ++ flat_map h l).
Proof.
  induction l as [|x l IH]; intros E; [constructor|]. simpl.
  rewrite (E x (in_eq _ _)), (IH (fun y Hy => E y (in_cons _ _ _ Hy))).
  rewrite <- !app_assoc. apply Permutation_app_head.
  apply Permutation_app_swap_app.
Qed.

Lemma partition_permutation {A : Type} (p q : A -> bool) (l : list A) :
  (forall x, In x l -> q x = negb (p x)) ->
  Permutation l (filter p l ++ filter q l).
Proof.
  induction l as [|x l IH]; intros E; [constructor|]. simpl.
  rewrite (E x (in_eq _ _)).
  specialize (IH (fun y Hy => E y (in_cons _ _ _ Hy))).
  destruct (p x); simpl.
  - now constructor.
  - now apply Permutation_cons_app.
Qed.

(** The synthetic nodes met by the traversal are the root, if it is
    one, and the synthetic children of the nodes met. *)
Lemma synthetic_reach (n : value) :
  Permutation (filter is_synthetic (reach n))
    (filter is_synthetic [n]
     ++ flat_map (fun m => filter is_synthetic (children m)) (reach n)).
Proof.
  induction n as [n IH] using tree_ind.
  rewrite reach_eq.
  change (n :: flat_map reach (children n))
    with ([n] ++ flat_map reach (children n)).
  rewrite filter_app, flat_map_app.
  apply Permutation_app_head. cbn [flat_map]. rewrite app_nil_r.
  rewrite filter_flat_map, flat_map_flat_map.
  rewrite <- (flat_map_singleton_filter is_synthetic (children n)).
  apply flat_map_split. exact IH.
Qed.

Lemma present_original_or_synthetic (n : value) :
  present n = true -> is_synthetic n = negb (is_original n).
Proof.
  destruct n as [[n|]|[n|]|[n|]|[n|]|[n|]|[n|]|[n|]|[n|]|[n|]|[n|]|[n|]|t];
    simpl; intros E; try discriminate E; reflexivity.
Qed.

Lemma node_ok_present (n : value) : node_ok n = true -> present n = true.
Proof.
  unfold node_ok. intros E.
  apply andb_true_iff in E as [E _]. now apply andb_true_iff in E as [E _].
Qed.

Lemma synthetic_leaf (n : value) :
  is_synthetic n = true -> children n = [].
Proof. destruct n as [| | | | | | | | | |[n|]|]; try discriminate; reflexivity. Qed.

(** The identifiers of the synthetic nodes met by the traversal are
    those of the value instances they are built from. *)
Lemma synthetic_ids (root : value) :
  is_synthetic root = false ->
  Permutation (map node_id (filter is_synthetic (reach root)))
    (map instance_id (flat_map instance_tags (reach root))).
Proof.
  intros Hroot.
  rewrite (synthetic_reach root). cbn [filter]. rewrite Hroot.
  cbn [app]. rewrite !map_of_flat_map.
  erewrite flat_map_ext_in; [reflexivity|].
  intros m _. apply synthetic_children_ids.
Qed.

Lemma NoDup_map_injective {A B : Type} (f : A -> B) (l : list A) :
  (forall x y, f x = f y -> x = y) -> NoDup l -> NoDup (map f l).
Proof.
  intros Hf. induction 1 as [|x l Hx _ IH]; simpl; constructor; [|exact IH].
  rewrite in_map_iff. intros [y [E Hy]]. apply Hf in E. now subst y.
Qed.

Lemma NoDup_append {A : Type} (l1 l2 : list A) :
  NoDup l1 -> NoDup l2 -> (forall a, In a l1 -> ~ In a l2) ->
  NoDup (l1 ++ l2).
Proof.
  induction 1 as [|x l1 Hx _ IH]; simpl; intros H2 Hd; [exact H2|].
  constructor.
  - rewrite in_app_iff. intros [Hin|Hin]; [now apply Hx|].
    exact (Hd x (or_introl eq_refl) Hin).
  - apply IH; [exact H2|]. intros a Ha. apply Hd. now right.
Qed.

(** In a tree in order whose positions and value instances are each
    used once, no two nodes met by the traversal have the same
    identifier. *)
Lemma node_ids_NoDup (root : value) :
  well_formed root = true ->
  unique_positions root -> unique_instances root ->
  NoDup (map node_id (reach root)).
Proof.
  intros Hwf Hpos Hinst.
  unfold well_formed in Hwf. rewrite forallb_forall in Hwf.
  destruct (is_synthetic root) eqn:Hroot.
  { rewrite reach_eq, (synthetic_leaf root Hroot). simpl.
    constructor; [intros []|constructor]. }
  assert (Hpart : Permutation (reach root)
            (filter is_original (reach root)
             ++ filter is_synthetic (reach root))).
  { apply partition_permutation. intros x Hx.
    apply present_original_or_synthetic, node_ok_present. now apply Hwf. }
  apply (Permutation_map node_id) in Hpart. rewrite map_app in Hpart.
  apply (Permutation_NoDup (Permutation_sym Hpart)).
  pose proof (synthetic_ids root Hroot) as Hsyn.
  apply NoDup_append.
  - rewrite original_ids.
    apply NoDup_map_injective; [exact position_id_inj | exact Hpos].
  - apply (Permutation_NoDup (Permutation_sym Hsyn)).
    apply NoDup_map_injective; [exact instance_id_inj | exact Hinst].
  - intros a Ho Hs. rewrite original_ids in Ho.
    apply (Permutation_in _ Hsyn) in Hs.
    apply in_map_iff in Ho as [p [Ep _]].
    apply in_map_iff in Hs as [t [Et _]].
    apply (position_id_not_instance_id p t). congruence.
Qed.

Lemma NoDup_of_map {A B : Type} (f : A -> B) (l : list A) :
  NoDup (map f l) -> NoDup l.
Proof.
  induction l as [|x l IH]; simpl; intros Hn; [constructor|].
  inversion Hn as [|y l' Hx Hl]; subst. constructor; [|now apply IH].
  intros Hin. apply Hx. now apply in_map.
Qed.

Lemma NoDup_once {A : Type} (x : A) (l : list A) :
  NoDup l -> In x l ->
  exists l1 l2, l = l1 ++ x :: l2 /\ ~ In x l1 /\ ~ In x l2.
Proof.
  intros Hn Hin. destruct (in_split x l Hin) as [l1 [l2 E]].
  exists l1, l2. split; [exact E|]. subst l.
  apply NoDup_remove_2 in Hn. rewrite in_app_iff in Hn. tauto.
Qed.

Lemma opNode_getID (op : ref string) :
  getID (opNode op) = Ok (instance_id (SOp, ref_addr op)).
Proof. reflexivity. Qed.

Lemma well_formed_succeeds {W : Type} `{Accepting W}
    (d : Marshaler W) (r : Rule) :
  well_formed_rule r = true ->
  snd (MarshalRule d (Some r)) = Ok tt /\
  contents (w (fst (MarshalRule d (Some r))))
  = (contents (w d) ++ ("digraph {" ++ nl)
     ++ render (walk (root_of r)) ++ ("}" ++ nl))%string.
Proof.
  intros Hwf. destruct (MarshalRule_run d r) as [Hr [Hout _]].
  assert (Hok : snd (MarshalRule d (Some r)) = Ok tt).
  { rewrite Hr. apply first_failure_ok. rewrite Forall_map.
    unfold well_formed_rule, well_formed in Hwf.
    rewrite forallb_forall in Hwf. rewrite Forall_forall.
    intros n Hn. apply node_ok_verdict. now apply Hwf. }
  split; [exact Hok | exact (Hout Hok)].
Qed.

(** C8, amended: in a rule in order whose (variant, offset) pairs are
    each used once and whose value instances are each used for one
    synthetic node, on a sink that accepts every write, the document is
    the traversal; every node reachable through the child enumeration is
    declared there exactly once and nothing else is; no identifier is
    declared twice; and two operator nodes built from different
    instances carrying the same symbol have different identifiers. *)
Theorem nodes_declared_once {W : Type} `{Accepting W}
    (d : Marshaler W) (r : Rule) :
  well_formed_rule r = true ->
  unique_positions (root_of r) ->
  unique_instances (root_of r) ->
  contents (w (fst (MarshalRule d (Some r))))
  = (contents (w d) ++ ("digraph {" ++ nl)
     ++ render (walk (root_of r)) ++ ("}" ++ nl))%string /\
  (forall n : value, reachable (root_of r) n ->
     exists l1 l2 : list value,
       declared (walk (root_of r)) = l1 ++ n :: l2 /\
       ~ In n l1 /\ ~ In n l2) /\
  (forall n : value,
     In n (declared (walk (root_of r))) -> reachable (root_of r) n) /\
  NoDup (map node_id (declared (walk (root_of r)))) /\
  (forall op1 op2 : ref string,
     ref_addr op1 <> ref_addr op2 -> ref_val op1 = ref_val op2 ->
     getID (opNode op1) <> getID (opNode op2)).
Proof.
  intros Hwf Hpos Hinst.
  pose proof (node_ids_NoDup (root_of r) Hwf Hpos Hinst) as Hids.
  fold (reach (root_of r)).
  split; [exact (proj2 (well_formed_succeeds d r Hwf))|].
  split; [|split; [|split]].
  - intros n Hn. apply NoDup_once.
    + exact (NoDup_of_map node_id _ Hids).
    + now apply reachable_reach.
  - intros n Hn. now apply reachable_reach.
  - exact Hids.
  - intros op1 op2 Ha _. rewrite !opNode_getID. intros E.
    apply Ha.
    assert (Et : (SOp, ref_addr op1) = (SOp, ref_addr op2)).
    { apply instance_id_inj. congruence. }
    congruence.
Qed.

Lemma nodes_declared_once_witness :
  well_formed_rule Example_two_operators.rule = true /\
  unique_positions (root_of Example_two_operators.rule) /\
  unique_instances (root_of Example_two_operators.rule) /\
  NoDup (map node_id (declared (walk (root_of Example_two_operators.rule)))) /\
  ref_val Example_two_operators.conn1 = ref_val Example_two_operators.conn2 /\
  getID (opNode Example_two_operators.conn1)
  <> getID (opNode Example_two_operators.conn2).
Proof.
  assert (Hpos : unique_positions (root_of Example_two_operators.rule)).
  { unfold unique_positions. vm_compute.
    repeat (constructor; [simpl; intuition discriminate|]). constructor. }
  assert (Hinst : unique_instances (root_of Example_two_operators.rule)).
  { unfold unique_instances. vm_compute.
    repeat (constructor; [simpl; intuition discriminate|]). constructor. }
  destruct (nodes_declared_once (NewMarshaler EmptyString)
              Example_two_operators.rule eq_refl Hpos Hinst)
    as [_ [_ [_ [Hids Hops]]]].
  split; [reflexivity|]. split; [exact Hpos|]. split; [exact Hinst|].
  split; [exact Hids|]. split; [reflexivity|].
  apply Hops; [discriminate | reflexivity].
Defined.

(** ** Runs on any sink *)

Lemma well_formed_verdicts (n : value) :
  well_formed n = true -> Forall (fun m => verdict m = Ok tt) (reach n).
Proof.
  unfold well_formed. rewrite forallb_forall, Forall_forall.
  intros Hwf m Hm. apply node_ok_verdict. now apply Hwf.
Qed.

Section AnySink.
Context {W : Type} `{Writer W}.

Lemma writeStrings_app (l1 l2 : list string) :
  forall d : Marshaler W,
    writeStrings d (l1 ++ l2)
    = match writeStrings d l1 with
      | (d1, Ok _) => writeStrings d1 l2
      | other => other
      end.
Proof.
  induction l1 as [|s l1 IH]; intros d; [reflexivity|].
  simpl. destruct (writeString d s) as [d1 [[]|e|]];
    [apply IH | reflexivity ..].
Qed.

Lemma writeString_no_panic (d : Marshaler W) (s : string) :
  snd (writeString d s) <> Panic.
Proof.
  unfold writeString. destruct (Write (w d) s) as [w' [e|]]; discriminate.
Qed.

Lemma writeStrings_no_panic (ss : list string) :
  forall d : Marshaler W, snd (writeStrings d ss) <> Panic.
Proof.
  induction ss as [|s ss IH]; intros d; [discriminate|]. simpl.
  pose proof (writeString_no_panic d s) as Hs.
  destruct (writeString d s) as [d1 [[]|e|]]; simpl in *;
    [apply IH | discriminate | congruence].
Qed.

(** An error of a sequence of writes is an error that the sink gave. *)
Lemma writeStrings_error (ss : list string) :
  forall (d : Marshaler W) (e : error),
    snd (writeStrings d ss) = Err e ->
    exists (sink : W) (s : string), In s ss /\ snd (Write sink s) = Some e.
Proof.
  induction ss as [|s ss IH]; intros d e; [discriminate|]. simpl.
  destruct (writeString d s) as [d1 o] eqn:Es.
  unfold writeString in Es. destruct (Write (w d) s) as [w' oe] eqn:Ew.
  injection Es as <- <-. destruct oe as [e'|]; simpl.
  - intros E. injection E as ->. exists (w d), s. rewrite Ew. auto.
  - intros E. destruct (IH _ _ E) as [sink [s' [Hin Hs]]].
    exists sink, s'. auto.
Qed.

Let writes_ok (n : value) : Prop :=
  Forall (fun m => verdict m = Ok tt) (reach n) ->
  forall d : Marshaler W,
    writeNode d n = writeStrings d (map render_event (walk n)).

Lemma writeChildren_writes (node : value) (i : string) (cs : list value) :
  getID node = Ok i ->
  (forall c, In c cs -> writes_ok c) ->
  Forall (fun m => verdict m = Ok tt) (flat_map reach cs) ->
  forall d : Marshaler W,
    writeChildren node cs d
    = writeStrings d
        (map render_event (flat_map (fun c => Edge node c :: walk c) cs)).
Proof.
  intros Hid. induction cs as [|c cs IH]; intros Hcs Hv d; [reflexivity|].
  cbn [writeChildren flat_map] in *. apply Forall_app in Hv as [Hv1 Hv2].
  assert (Hc : verdict c = Ok tt).
  { rewrite Forall_forall in Hv1. apply Hv1, reach_self. }
  unfold verdict in Hc. destruct (getID c) as [ci| |] eqn:Hci;
    try discriminate Hc.
  unfold writeEdge. rewrite Hid, Hci.
  rewrite <- app_comm_cons, map_cons, map_app.
  cbn [writeStrings render_event]. rewrite Hid, Hci. cbn [str].
  destruct (writeString d (edgeLine i ci)) as [d1 [[]|e|]];
    try reflexivity.
  rewrite writeStrings_app, <- (Hcs c (in_eq _ _) Hv1 d1).
  destruct (writeNode d1 c) as [d2 [[]|e|]]; try reflexivity.
  apply IH; [|exact Hv2]. intros c' Hc'. apply Hcs. now right.
Qed.

Lemma writeNode_writes (n : value) : writes_ok n.
Proof.
  induction n as [n IH] using tree_ind. intros Hv d.
  rewrite reach_eq in Hv. inversion Hv as [|x l Hn Hrest]; subst.
  rewrite writeNode_eq, walk_eq. unfold verdict in Hn.
  destruct (getID n) as [i| |] eqn:Hid; try discriminate Hn.
  destruct (getLabel_of_getID _ _ Hid) as [l Hl]. rewrite Hl.
  cbn [map writeStrings render_event]. rewrite Hid, Hl. cbn [str].
  destruct (writeString d (declaration i l)) as [d1 [[]|e|]];
    try reflexivity.
  destruct (getChildren n) as [cs| |] eqn:Hcs; try discriminate Hn.
  rewrite (children_of_ok _ _ Hcs) in *.
  now apply (writeChildren_writes n i cs Hid IH).
Qed.

(** [MarshalRule] on a tree in order is the sequence of its writes. *)
Lemma MarshalRule_writes (d : Marshaler W) (r : Rule) :
  well_formed_rule r = true ->
  MarshalRule d (Some r) = writeStrings d (document_writes r).
Proof.
  intros Hwf. unfold MarshalRule, document_writes.
  cbn [writeStrings]. fold (root_of r).
  destruct (writeString d ("digraph {" ++ nl)) as [d1 [[]|e|]];
    try reflexivity.
  rewrite writeStrings_app.
  rewrite <- (writeNode_writes (root_of r) (well_formed_verdicts _ Hwf) d1).
  destruct (writeNode d1 (root_of r)) as [d2 [[]|e|]]; try reflexivity.
  cbn [writeStrings].
  destruct (writeString d2 ("}" ++ nl)) as [d3 [[]|e|]]; reflexivity.
Qed.
End AnySink.

(** ** Sinks that fail and sinks that count *)

Lemma concat_empty_app (l1 l2 : list string) :
  String.concat EmptyString (l1 ++ l2)
  = (String.concat EmptyString l1 ++ String.concat EmptyString l2)%string.
Proof.
  induction l1 as [|x l1 IH]; [reflexivity|].
  rewrite <- app_comm_cons, !concat_empty_cons, IH.
  now rewrite append_assoc.
Qed.

Lemma document_writes_text (r : Rule) :
  String.concat EmptyString (document_writes r) = document_text r.
Proof.
  unfold document_writes, document_text.
  rewrite concat_empty_cons, concat_empty_app. reflexivity.
Qed.

Lemma writeStrings_Limited (ss : list string) :
  forall (b : nat) (s : string),
    writeStrings {| w := {| budget := b; data := s |} |} ss
    = if Nat.leb (List.length ss) b
      then ({| w := {| budget := b - List.length ss;
                       data := (s ++ String.concat EmptyString ss)%string |} |},
            Ok tt)
      else ({| w := {| budget := 0;
                       data := (s ++ String.concat EmptyString
                                       (firstn b ss))%string |} |},
            Err (WriteError "short write")).
Proof.
  induction ss as [|x ss IH]; intros b s.
  - simpl. rewrite Nat.sub_0_r, append_empty_r. reflexivity.
  - destruct b as [|k].
    + simpl. rewrite append_empty_r. reflexivity.
    + cbn [writeStrings]. unfold writeString. cbn [Write LimitedWriter w budget data].
      rewrite IH. cbn [List.length Nat.leb Nat.sub firstn].
      rewrite !concat_empty_cons, !append_assoc. reflexivity.
Qed.

Lemma writeStrings_Counted (ss : list string) :
  forall c : Counted,
    writeStrings {| w := c |} ss
    = ({| w := {| writes := writes c + List.length ss;
                  text := (text c ++ String.concat EmptyString ss)%string |} |},
       Ok tt).
Proof.
  induction ss as [|x ss IH]; intros [n t].
  - simpl. rewrite Nat.add_0_r, append_empty_r. reflexivity.
  - cbn [writeStrings]. unfold writeString. cbn [Write CountedWriter w writes text].
    rewrite IH. cbn [writes text List.length].
    rewrite concat_empty_cons, append_assoc, Nat.add_succ_r. reflexivity.
Qed.

(** ** The traversal is a tree *)

Lemma edges_app (l1 l2 : list event) :
  edges (l1 ++ l2) = edges l1 ++ edges l2.
Proof. unfold edges. apply flat_map_app. Qed.

Lemma events_length (evs : list event) :
  List.length evs = List.length (declared evs) + List.length (edges evs).
Proof.
  induction evs as [|[n|p c] evs IH]; simpl; [reflexivity | |]; rewrite IH; lia.
Qed.

Lemma edges_eq (n : value) :
  edges (walk n)
  = flat_map (fun c => (n, c) :: edges (walk c)) (children n).
Proof.
  rewrite walk_eq. cbn [edges flat_map app].
  induction (children n) as [|c cs IH]; [reflexivity|].
  cbn [flat_map]. fold (edges (Edge n c :: walk c)).
  rewrite <- IH. unfold edges. now rewrite flat_map_app.
Qed.

Lemma reach_edges (n : value) : reach n = n :: map snd (edges (walk n)).
Proof.
  induction n as [n IH] using tree_ind.
  rewrite reach_eq, edges_eq. f_equal.
  induction (children n) as [|c cs IHcs]; [reflexivity|].
  cbn [flat_map]. rewrite map_app, <- IHcs.
  - rewrite (IH c (in_eq _ _)). reflexivity.
  - intros c' Hc'. apply IH. now right.
Qed.



(** ** Success and failure, node by node *)

Lemma verdict_node_ok (n : value) : verdict n = Ok tt -> node_ok n = true.
Proof.
  unfold node_ok, verdict.
  destruct n as [[n|]|[n|]|[n|]|[n|]|[n|]|[n|]|[n|]|[n|]|[n|]|[n|]|[n|]|t];
    simpl; try discriminate; try reflexivity.
  - destruct (ScalarComparison_Op n); [reflexivity | discriminate].
  - destruct (ArrayComparison_Op n); [reflexivity | discriminate].
  - unfold populated.
    destruct (Primary_Ident n), (Primary_Number n), (Primary_String n),
      (Primary_SubExpression n); simpl; try reflexivity; discriminate.
Qed.

Lemma first_failure_all_ok (l : list (outcome unit)) :
  first_failure l = Ok tt -> Forall (fun o => o = Ok tt) l.
Proof.
  induction l as [|[[]|e|] l IH]; simpl; intros E;
    [constructor | | discriminate E ..].
  constructor; [reflexivity | now apply IH].
Qed.

Lemma first_failure_in (l : list (outcome unit)) :
  first_failure l = Ok tt \/ In (first_failure l) l.
Proof.
  induction l as [|[[]|e|] l IH]; simpl; auto.
  destruct IH as [IH|IH]; auto.
Qed.

Lemma well_formed_iff_verdicts (n : value) :
  well_formed n = true <-> first_failure (map verdict (reach n)) = Ok tt.
Proof.
  split.
  - intros Hwf. apply first_failure_ok. rewrite Forall_map.
    now apply well_formed_verdicts.
  - intros E. apply first_failure_all_ok in E. rewrite Forall_map in E.
    unfold well_formed. rewrite forallb_forall. rewrite Forall_forall in E.
    intros m Hm. apply verdict_node_ok. now apply E.
Qed.

(** A node that is not foreign fails on its own account by the error of
    the empty [Primary] or by a panic. *)
Lemma verdict_kinds (n : value) :
  foreign n = false ->
  verdict n = Ok tt \/ verdict n = Err empty_primary \/ verdict n = Panic.
Proof.
  intros Hf. destruct (empty_Primary n) eqn:He.
  - right. left. now apply empty_Primary_verdict.
  - destruct (verdict_cases n Hf He); auto.
Qed.

Lemma nil_verdict (n : value) :
  present n = false -> foreign n = false -> getID n = Panic.
Proof.
  destruct n as [[n|]|[n|]|[n|]|[n|]|[n|]|[n|]|[n|]|[n|]|[n|]|[n|]|[n|]|t];
    simpl; intros E F; try discriminate; reflexivity.
Qed.

(** ** What a failed run leaves in the sink *)

Section Partial.
Context {W : Type} `{Accepting W}.



End Partial.

(** ** Identifiers, the other way round *)

Lemma node_ids_NoDup_inv (root : value) :
  well_formed root = true ->
  NoDup (map node_id (reach root)) ->
  unique_positions root /\ unique_instances root.
Proof.
  intros Hwf Hids. unfold unique_positions, unique_instances.
  unfold well_formed in Hwf. rewrite forallb_forall in Hwf.
  destruct (is_synthetic root) eqn:Hroot.
  { rewrite reach_eq, (synthetic_leaf root Hroot).
    destruct root; try discriminate Hroot. simpl. split; constructor. }
  assert (Hpart : Permutation (reach root)
            (filter is_original (reach root)
             ++ filter is_synthetic (reach root))).
  { apply partition_permutation. intros x Hx.
    apply present_original_or_synthetic, node_ok_present. now apply Hwf. }
  apply (Permutation_map node_id) in Hpart. rewrite map_app in Hpart.
  apply (Permutation_NoDup Hpart) in Hids.
  split.
  - apply NoDup_app_remove_r in Hids. rewrite original_ids in Hids.
    exact (NoDup_of_map _ _ Hids).
  - apply NoDup_app_remove_l in Hids.
    apply (Permutation_NoDup (synthetic_ids root Hroot)) in Hids.
    exact (NoDup_of_map _ _ Hids).
Qed.

(** ** Type names *)

Lemma cut_absent (sep : ascii) (t : string) :
  ~ In sep (list_ascii_of_string t) -> cut sep t = None.
Proof.
  induction t as [|a t IH]; simpl; intros Hn; [reflexivity|].
  destruct (Ascii.eqb a sep) eqn:E.
  - apply Ascii.eqb_eq in E. tauto.
  - rewrite IH; [reflexivity | tauto].
Qed.

Lemma cut_first (sep : ascii) (a b : string) :
  ~ In sep (list_ascii_of_string a) ->
  cut sep (a ++ String sep b) = Some (a, b).
Proof.
  induction a as [|x a IH]; simpl; intros Hn.
  - now rewrite Ascii.eqb_refl.
  - destruct (Ascii.eqb x sep) eqn:E.
    + apply Ascii.eqb_eq in E. tauto.
    + rewrite IH; [reflexivity | tauto].
Qed.

Lemma Exists_negb {A : Type} (f : A -> bool) (l : list A) :
  existsb (fun x => negb (f x)) l = true -> Exists (fun x => f x = false) l.
Proof.
  rewrite existsb_exists, Exists_exists. intros [x [Hx E]].
  exists x. split; [exact Hx | now apply negb_true_iff].
Qed.

(** ** Order of the events *)

Lemma edges_lead_app (l1 l2 : list event) :
  edges_lead l1 -> edges_lead l2 -> edges_lead (l1 ++ l2).
Proof.
  induction l1 as [|[n|p c] l1 IH]; intros H1 H2; [exact H2 | |].
  - simpl. now apply IH.
  - destruct l1 as [|next rest]; [contradiction|].
    destruct H1 as [E H1]. split; [exact E | now apply IH].
Qed.

Lemma walk_edges_lead (n : value) : edges_lead (walk n).
Proof.
  induction n as [n IH] using tree_ind. rewrite walk_eq.
  change (edges_lead (flat_map (fun c => Edge n c :: walk c) (children n))).
  induction (children n) as [|c cs IHcs]; [exact I|].
  cbn [flat_map]. apply edges_lead_app.
  - pose proof (IH c (in_eq _ _)) as Hc. rewrite walk_eq in *.
    split; [reflexivity | exact Hc].
  - apply IHcs. intros c' Hc'. apply IH. now right.
Qed.

(** * Further properties of the marshaler *)

(** ** Sinks that reject writes *)

(** On a tree in order and whatever the sink, [MarshalRule] is the
    sequence of its writes, one for the opening line, one for each
    declaration and each edge in the order of the traversal, one for the
    closing line, stopped by the first write that the sink rejects.  It
    never panics, and an error it returns is one that the sink gave for
    one of these writes. *)
Theorem MarshalRule_write_sequence {W : Type} `{Writer W}
    (d : Marshaler W) (r : Rule) :
  well_formed_rule r = true ->
  MarshalRule d (Some r) = writeStrings d (document_writes r) /\
  snd (MarshalRule d (Some r)) <> Panic /\
  (forall e : error,
      snd (MarshalRule d (Some r)) = Err e ->
      exists (sink : W) (s : string),
        In s (document_writes r) /\ snd (Write sink s) = Some e).
Proof.
  intros Hwf. rewrite (MarshalRule_writes d r Hwf).
  split; [reflexivity|]. split.
  - apply writeStrings_no_panic.
  - intros e. apply writeStrings_error.
Qed.

Lemma MarshalRule_write_sequence_witness :
  well_formed_rule Example_a_eq_1.rule = true /\
  snd (MarshalRule (NewMarshaler {| budget := 3; data := EmptyString |})
         (Some Example_a_eq_1.rule)) <> Panic.
Proof.
  split; [reflexivity|].
  exact (proj1 (proj2 (MarshalRule_write_sequence
    (NewMarshaler {| budget := 3; data := EmptyString |})
    Example_a_eq_1.rule eq_refl))).
Defined.

(** A sink that accepts [b] writes and rejects the next: a tree in
    order whose document takes no more than [b] writes is written in
    full; otherwise [MarshalRule] returns the error of the sink, which
    holds the first [b] writes and nothing of the later ones. *)
Theorem MarshalRule_short_write (r : Rule) (b : nat) (s : string) :
  well_formed_rule r = true ->
  (List.length (document_writes r) <= b ->
   MarshalRule {| w := {| budget := b; data := s |} |} (Some r)
   = ({| w := {| budget := b - List.length (document_writes r);
                 data := (s ++ document_text r)%string |} |},
      Ok tt)) /\
  (b < List.length (document_writes r) ->
   MarshalRule {| w := {| budget := b; data := s |} |} (Some r)
   = ({| w := {| budget := 0;
                 data := (s ++ String.concat EmptyString
                                 (firstn b (document_writes r)))%string |} |},
      Err (WriteError "short write"))).
Proof.
  intros Hwf. rewrite (MarshalRule_writes _ r Hwf), writeStrings_Limited.
  split; intros Hb.
  - apply Nat.leb_le in Hb. rewrite Hb. now rewrite document_writes_text.
  - apply Nat.leb_gt in Hb. now rewrite Hb.
Qed.

Lemma MarshalRule_short_write_witness :
  well_formed_rule Example_a_eq_1.rule = true /\
  3 < List.length (document_writes Example_a_eq_1.rule) /\
  snd (MarshalRule {| w := {| budget := 3; data := EmptyString |} |}
         (Some Example_a_eq_1.rule))
  = Err (WriteError "short write").
Proof.
  assert (Hb : 3 < List.length (document_writes Example_a_eq_1.rule)).
  { vm_compute. lia. }
  split; [reflexivity|]. split; [exact Hb|].
  rewrite (proj2 (MarshalRule_short_write Example_a_eq_1.rule 3 EmptyString
                    eq_refl) Hb).
  reflexivity.
Defined.

(** One write per line: on a sink that counts its writes, a tree in
    order costs two writes for each node but one, and three more. *)
Theorem MarshalRule_counts_writes (r : Rule) (c : Counted) :
  well_formed_rule r = true ->
  snd (MarshalRule {| w := c |} (Some r)) = Ok tt /\
  writes (w (fst (MarshalRule {| w := c |} (Some r))))
  = writes c + 2 * List.length (reach (root_of r)) + 1 /\
  text (w (fst (MarshalRule {| w := c |} (Some r))))
  = (text c ++ document_text r)%string.
Proof.
  intros Hwf. rewrite (MarshalRule_writes _ r Hwf), writeStrings_Counted.
  cbn [fst snd w writes text]. split; [reflexivity|]. split.
  - unfold document_writes. cbn [List.length].
    rewrite length_app, length_map, events_length. fold (reach (root_of r)).
    rewrite (reach_edges (root_of r)) at 1 2. cbn [List.length].
    rewrite length_map. lia.
  - now rewrite document_writes_text.
Qed.

Lemma MarshalRule_counts_writes_witness :
  well_formed_rule Example_a_eq_1.rule = true /\
  writes (w (fst (MarshalRule {| w := {| writes := 0; text := EmptyString |} |}
                    (Some Example_a_eq_1.rule))))
  = 0 + 2 * List.length (reach (root_of Example_a_eq_1.rule)) + 1.
Proof.
  split; [reflexivity|].
  exact (proj1 (proj2 (MarshalRule_counts_writes Example_a_eq_1.rule
    {| writes := 0; text := EmptyString |} eq_refl))).
Defined.

(** ** The shape of the traversal *)



(** ** Success and failure *)

(** On a sink that accepts every write, [MarshalRule] succeeds exactly
    on the trees in order. *)
Theorem MarshalRule_succeeds_iff {W : Type} `{Accepting W}
    (d : Marshaler W) (r : Rule) :
  snd (MarshalRule d (Some r)) = Ok tt <-> well_formed_rule r = true.
Proof.
  destruct (MarshalRule_run d r) as [Hr _]. rewrite Hr.
  unfold well_formed_rule. symmetry. apply well_formed_iff_verdicts.
Qed.

(** From its entry point and on a sink that accepts every write, the
    marshaler ends in one of three ways: success, the error of the empty
    [Primary], or a panic.  The error for an unsupported node cannot
    arise: every child that [getChildren] returns is of a type that
    [getID] knows. *)
Theorem MarshalRule_outcomes {W : Type} `{Accepting W}
    (d : Marshaler W) (r : option Rule) :
  (snd (MarshalRule d r) = Ok tt \/
   snd (MarshalRule d r) = Err empty_primary \/
   snd (MarshalRule d r) = Panic) /\
  (forall n : value, snd (MarshalRule d r) <> Err (unsupported n)).
Proof.
  assert (Hthree : snd (MarshalRule d r) = Ok tt \/
                   snd (MarshalRule d r) = Err empty_primary \/
                   snd (MarshalRule d r) = Panic).
  { destruct r as [r|].
    - destruct (MarshalRule_run d r) as [Hr _]. rewrite Hr.
      destruct (first_failure_in (map verdict (reach (root_of r))))
        as [E|Hin]; [now left|].
      apply in_map_iff in Hin as [m [Em Hm]]. rewrite <- Em.
      apply verdict_kinds.
      pose proof (reach_closed (root_of r) eq_refl) as Hcl.
      rewrite Forall_forall in Hcl. now apply Hcl.
    - right. right. unfold MarshalRule.
      destruct (writeString_accepts d ("digraph {" ++ nl)) as [d1 [E1 _]].
      now rewrite E1. }
  split; [exact Hthree|]. intros n E. rewrite E in Hthree.
  destruct Hthree as [Hx|[Hx|Hx]]; discriminate Hx.
Qed.


(** ** Nil pointers *)

(** A nil pointer to one of the ten structures, or a nil synthetic
    node, makes [writeNode] panic in [getID] before anything is written,
    whatever the sink; so does the edge that leads to it. *)
Theorem writeNode_nil {W : Type} `{Writer W} (d : Marshaler W) (n : value) :
  present n = false -> foreign n = false ->
  writeNode d n = (d, Panic) /\
  (forall (p : value) (i : string),
      getID p = Ok i -> writeEdge d p n = (d, Panic)).
Proof.
  intros Hp Hf. pose proof (nil_verdict n Hp Hf) as Hid. split.
  - now rewrite writeNode_eq, Hid.
  - intros p i Hpi. unfold writeEdge. now rewrite Hpi, Hid.
Qed.

Lemma writeNode_nil_witness :
  writeNode (NewMarshaler EmptyString) (VExpression None)
  = (NewMarshaler EmptyString, Panic).
Proof.
  exact (proj1 (writeNode_nil (NewMarshaler EmptyString) (VExpression None)
                  eq_refl eq_refl)).
Defined.

(** [MarshalRule] reads the [BooleanExpression] of the rule after it has
    written the opening line: given a nil rule, or a rule without its
    [BooleanExpression], it panics and leaves the opening line in the
    sink. *)
Theorem MarshalRule_nil_rule {W : Type} `{Accepting W} (d : Marshaler W) :
  (snd (MarshalRule d None) = Panic /\
   contents (w (fst (MarshalRule d None)))
   = (contents (w d) ++ "digraph {" ++ nl)%string) /\
  (forall pos : Position,
      snd (MarshalRule d (Some (mkRule pos None))) = Panic /\
      contents (w (fst (MarshalRule d (Some (mkRule pos None)))))
      = (contents (w d) ++ "digraph {" ++ nl)%string).
Proof.
  unfold MarshalRule.
  destruct (writeString_accepts d ("digraph {" ++ nl)) as [d1 [E1 C1]].
  rewrite E1. split; [split; [reflexivity | exact C1]|].
  intros pos. cbn [Rule_BooleanExpression]. rewrite writeNode_eq.
  split; [reflexivity | exact C1].
Qed.

(** The children that [getChildren] returns without a nil check are
    visited as they are: one nil pointer among the nodes met makes
    [MarshalRule] panic, on a sink that accepts every write and a tree
    without an empty [Primary]. *)
Theorem nil_child_panics {W : Type} `{Accepting W}
    (d : Marshaler W) (r : Rule) :
  (forall n : Rule,
      children (VRule (Some n))
      = [VBooleanExpression (Rule_BooleanExpression n)]) /\
  (forall n : BooleanExpression,
      children (VBooleanExpression (Some n))
      = [VExpression (BooleanExpression_Expression n)]) /\
  (forall n : Expression,
      In (VComparison (Expression_Comparison n))
         (children (VExpression (Some n)))) /\
  (forall n : Comparison,
      In (VBitOperation (Comparison_BitOperation n))
         (children (VComparison (Some n)))) /\
  (forall n : BitOperation,
      In (VUnary (BitOperation_Unary n))
         (children (VBitOperation (Some n)))) /\
  (Forall (fun n => empty_Primary n = false) (reach (root_of r)) ->
   Exists (fun n => present n = false) (reach (root_of r)) ->
   snd (MarshalRule d (Some r)) = Panic).
Proof.
  split; [reflexivity|]. split; [reflexivity|].
  split; [intros n; now left|]. split; [intros n; now left|].
  split; [intros n; now left|].
  intros Hall Hex. destruct (MarshalRule_run d r) as [Hr _].
  rewrite Hr. pose proof (reach_closed (root_of r) eq_refl) as Hcl.
  rewrite Forall_forall in Hall, Hcl.
  apply first_failure_only; [discriminate | |].
  - rewrite Forall_map, Forall_forall. intros n Hn.
    apply verdict_cases; auto.
  - apply Exists_exists in Hex. destruct Hex as [n [Hn Hnil]].
    apply in_map_iff. exists n. split; [|exact Hn].
    unfold verdict. now rewrite (nil_verdict n Hnil (Hcl n Hn)).
Qed.

Lemma nil_child_panics_witness :
  snd (MarshalRule (NewMarshaler EmptyString)
         (Some Example_malformed.no_expression)) = Panic.
Proof.
  apply (nil_child_panics (NewMarshaler EmptyString)
           Example_malformed.no_expression).
  - apply Forall_negb. vm_compute. reflexivity.
  - apply Exists_negb. vm_compute. reflexivity.
Defined.

(** ** Identifiers *)

(** In a tree in order the declarations carry pairwise different
    identifiers exactly when no (variant, offset) pair and no value
    instance is used twice: a repeated pair, or a value shared by two
    nodes, shows as one identifier declared twice. *)
Theorem node_ids_unique_iff (root : value) :
  well_formed root = true ->
  (NoDup (map node_id (declared (walk root)))
   <-> unique_positions root /\ unique_instances root).
Proof.
  intros Hwf. fold (reach root). split.
  - now apply node_ids_NoDup_inv.
  - intros [Hpos Hinst]. now apply node_ids_NoDup.
Qed.

Lemma node_ids_unique_iff_witness :
  well_formed (root_of Example_shared_operator.rule) = true /\
  ~ NoDup (map node_id
             (declared (walk (root_of Example_shared_operator.rule)))).
Proof.
  split; [reflexivity|]. intros Hn.
  apply (node_ids_unique_iff (root_of Example_shared_operator.rule) eq_refl)
    in Hn.
  destruct Hn as [_ Hi]. unfold unique_instances in Hi. vm_compute in Hi.
  inversion Hi as [|x l Hnin _]. apply Hnin. right. left. reflexivity.
Defined.

(** The identifier of an original node tells its variant and its
    offset, and it is never the identifier of a synthetic node that
    [getChildren] builds. *)
Theorem identifiers_tell_nodes_apart (n1 n2 : value) (p1 p2 : kind * Z) :
  node_key n1 = Some p1 -> node_key n2 = Some p2 ->
  (getID n1 = getID n2 -> p1 = p2) /\
  (forall m c : value,
      In c (children m) -> is_synthetic c = true -> getID c <> getID n1).
Proof.
  intros H1 H2. destruct p1 as [k1 o1], p2 as [k2 o2].
  destruct (getID_node_key n1 k1 o1 H1) as [E1 _].
  destruct (getID_node_key n2 k2 o2 H2) as [E2 _].
  split.
  - rewrite E1, E2. intros E. injection E as E.
    now apply position_id_inj.
  - intros m c Hc Hs E.
    assert (Hin : In (node_id c) (map node_id (filter is_synthetic (children m)))).
    { apply in_map, filter_In. auto. }
    rewrite synthetic_children_ids in Hin.
    apply in_map_iff in Hin as [t [Et _]].
    apply (position_id_not_instance_id (k1, o1) t).
    rewrite Et. unfold node_id. rewrite E, E1. reflexivity.
Qed.

Lemma identifiers_tell_nodes_apart_witness :
  node_key (VArray (Some Example_a_in_xy.array)) = Some (KArray, 5%Z) /\
  (forall m c : value,
      In c (children m) -> is_synthetic c = true ->
      getID c <> getID (VArray (Some Example_a_in_xy.array))).
Proof.
  split; [reflexivity|].
  exact (proj2 (identifiers_tell_nodes_apart
                  (VArray (Some Example_a_in_xy.array))
                  (VArray (Some Example_a_in_xy.numbers))
                  (KArray, 5%Z) (KArray, 5%Z) eq_refl eq_refl)).
Defined.

(** ** Runs one after the other *)

(** The marshaler keeps nothing between two calls: two rules in order
    written one after the other to a sink that accepts every write
    leave there the document of the first followed by the document of
    the second. *)
Theorem MarshalRule_twice {W : Type} `{Accepting W}
    (d : Marshaler W) (r1 r2 : Rule) :
  well_formed_rule r1 = true -> well_formed_rule r2 = true ->
  snd (MarshalRule (fst (MarshalRule d (Some r1))) (Some r2)) = Ok tt /\
  contents (w (fst (MarshalRule (fst (MarshalRule d (Some r1))) (Some r2))))
  = (contents (w d) ++ document_text r1 ++ document_text r2)%string.
Proof.
  intros H1 H2.
  destruct (well_formed_succeeds d r1 H1) as [_ C1].
  destruct (well_formed_succeeds (fst (MarshalRule d (Some r1))) r2 H2)
    as [O2 C2].
  split; [exact O2|]. rewrite C2, C1. unfold document_text.
  now rewrite !append_assoc.
Qed.

Lemma MarshalRule_twice_witness :
  snd (MarshalRule
         (fst (MarshalRule (NewMarshaler EmptyString)
                 (Some Example_a_eq_1.rule)))
         (Some Example_a_in_xy.rule)) = Ok tt.
Proof.
  exact (proj1 (MarshalRule_twice (NewMarshaler EmptyString)
                  Example_a_eq_1.rule Example_a_in_xy.rule
                  eq_refl eq_refl)).
Defined.

(** Every subtree of a tree in order is in order, and can be written on
    its own. *)
Theorem well_formed_subtree {W : Type} `{Accepting W}
    (d : Marshaler W) (root n : value) :
  well_formed root = true -> reachable root n ->
  well_formed n = true /\
  snd (writeNode d n) = Ok tt /\
  contents (w (fst (writeNode d n)))
  = (contents (w d) ++ render (walk n))%string.
Proof.
  intros Hwf Hn. apply reachable_reach in Hn.
  assert (Hsub : well_formed n = true).
  { unfold well_formed in *. rewrite forallb_forall in *.
    intros m Hm. apply Hwf. eapply reach_trans; eassumption. }
  split; [exact Hsub|].
  destruct (writeNode_run n d) as [Hr Hout].
  assert (Hok : snd (writeNode d n) = Ok tt).
  { rewrite Hr. now apply well_formed_iff_verdicts. }
  split; [exact Hok | exact (Hout Hok)].
Qed.

Lemma well_formed_subtree_witness :
  snd (writeNode (NewMarshaler EmptyString)
         (VBitOperation (Some Example_a_eq_1.rhs))) = Ok tt.
Proof.
  refine (proj1 (proj2 (well_formed_subtree (NewMarshaler EmptyString)
            (root_of Example_a_eq_1.rule)
            (VBitOperation (Some Example_a_eq_1.rhs)) eq_refl _))).
  apply reachable_reach. vm_compute. tauto.
Defined.

(** ** Leaves *)



(** [getLabel] outside the synthetic nodes: the name of the type after
    its first dot, further dots included, and the whole name when there
    is no dot. *)
Theorem getLabel_type_name :
  (forall pkg name : string,
      ~ In "."%char (list_ascii_of_string pkg) ->
      getLabel (VOther (pkg ++ "." ++ name)) = Ok name) /\
  (forall t : string,
      ~ In "."%char (list_ascii_of_string t) ->
      getLabel (VOther t) = Ok t).
Proof.
  split.
  - intros pkg name Hn. simpl. unfold SplitN2.
    change (pkg ++ "." ++ name)%string with (pkg ++ String "." name)%string.
    now rewrite (cut_first _ _ _ Hn).
  - intros t Hn. simpl. unfold SplitN2. now rewrite (cut_absent _ _ Hn).
Qed.

Lemma getLabel_type_name_witness :
  getLabel (VOther "*bytes.Buffer") = Ok "Buffer" /\
  getLabel (VOther "int") = Ok "int".
Proof.
  split.
  - apply (proj1 getLabel_type_name "*bytes" "Buffer").
    simpl. intuition discriminate.
  - apply (proj2 getLabel_type_name "int").
    simpl. intuition discriminate.
Defined.

(** ** Edges *)

(** [writeEdge] writes one line or nothing: with both identifiers at
    hand it writes the line of the edge; when one of them cannot be
    had it leaves the sink as it was, whatever the sink, and the failure
    of the parent comes before that of the child. *)
Theorem writeEdge_line_or_nothing {W : Type} `{Accepting W}
    (d : Marshaler W) (p c : value) :
  (forall i j : string,
      getID p = Ok i -> getID c = Ok j ->
      snd (writeEdge d p c) = Ok tt /\
      contents (w (fst (writeEdge d p c)))
      = (contents (w d) ++ i ++ " -> " ++ j ++ nl)%string) /\
  ((forall i : string, getID p <> Ok i) ->
   writeEdge d p c
   = (d, match getID p with Err e => Err e | _ => Panic end)) /\
  (forall i : string,
      getID p = Ok i -> (forall j : string, getID c <> Ok j) ->
      writeEdge d p c
      = (d, match getID c with Err e => Err e | _ => Panic end)).
Proof.
  unfold writeEdge. split; [|split].
  - intros i j Hp Hc. rewrite Hp, Hc.
    destruct (writeString_accepts d (edgeLine i j)) as [d1 [E1 C1]].
    rewrite E1. split; [reflexivity | exact C1].
  - intros Hp. destruct (getID p) as [i| |]; [|reflexivity ..].
    now destruct (Hp i).
  - intros i Hp Hc. rewrite Hp.
    destruct (getID c) as [j| |]; [|reflexivity ..].
    now destruct (Hc j).
Qed.

Lemma writeEdge_line_or_nothing_witness :
  writeEdge (NewMarshaler EmptyString) (VOther "int") (VExpression None)
  = (NewMarshaler EmptyString,
     Err (Errorf "unsupported node type: int")).
Proof.
  rewrite (proj1 (proj2 (writeEdge_line_or_nothing
             (NewMarshaler EmptyString) (VOther "int") (VExpression None)))).
  - reflexivity.
  - intros i. discriminate.
Defined.

(** ** Order of the traversal *)

(** Pre-order: what [writeNode] writes to a sink that accepts every
    write, for a tree in order, is the rendered traversal, which opens
    with the declaration of the root and in which every edge is
    followed at once by the declaration of its target, before any other
    edge. *)
Theorem walk_preorder {W : Type} `{Accepting W} (d : Marshaler W) (n : value) :
  (well_formed n = true ->
   contents (w (fst (writeNode d n)))
   = (contents (w d) ++ render (walk n))%string) /\
  hd_error (walk n) = Some (Decl n) /\
  edges_lead (walk n).
Proof.
  split; [|split; [now rewrite walk_eq | apply walk_edges_lead]].
  intros Hwf. destruct (writeNode_run n d) as [Hr Hout].
  apply Hout. rewrite Hr. now apply well_formed_iff_verdicts.
Qed.

Lemma walk_preorder_witness :
  well_formed (root_of Example_a_in_xy.rule) = true /\
  w (fst (writeNode (NewMarshaler EmptyString) (root_of Example_a_in_xy.rule)))
  = render (walk (root_of Example_a_in_xy.rule)).
Proof.
  split; [reflexivity|].
  exact (proj1 (walk_preorder (NewMarshaler EmptyString)
                  (root_of Example_a_in_xy.rule)) eq_refl).
Defined.

(** ** Shapes that the parser does not produce *)

(** The marshaler takes the optional fields as they come.  A [Unary]
    with nothing in it has no child and is written as its declaration
    alone; a [Comparison] holding both an [ArrayComparison] and a
    [ScalarComparison] lists both, in this order; an [Expression] with
    a connector and no next [Expression] lists the connector as its
    last child. *)
Theorem optional_fields_not_checked {W : Type} `{Accepting W}
    (d : Marshaler W) :
  (forall pos : Position,
      getChildren (VUnary (Some (mkUnary pos None None None))) = Ok [] /\
      snd (writeNode d (VUnary (Some (mkUnary pos None None None)))) = Ok tt /\
      contents (w (fst (writeNode d
                          (VUnary (Some (mkUnary pos None None None))))))
      = (contents (w d)
         ++ declaration ("Unary" ++ itoa (Offset pos)) "Unary")%string) /\
  (forall (c : Comparison) (a : ArrayComparison) (s : ScalarComparison),
      Comparison_ArrayComparison c = Some a ->
      Comparison_ScalarComparison c = Some s ->
      getChildren (VComparison (Some c))
      = Ok [VBitOperation (Comparison_BitOperation c);
            VArrayComparison (Some a); VScalarComparison (Some s)]) /\
  (forall (e : Expression) (op : ref string),
      Expression_Op e = Some op -> Expression_Next e = None ->
      getChildren (VExpression (Some e))
      = Ok [VComparison (Expression_Comparison e); opNode op]).
Proof.
  split; [|split].
  - intros pos. split; [reflexivity|].
    destruct (writeNode_run (VUnary (Some (mkUnary pos None None None))) d)
      as [Hr Hout].
    rewrite reach_eq in Hr.
    split; [exact Hr|]. rewrite (Hout Hr), walk_eq. reflexivity.
  - intros c a s Ea Es. simpl. now rewrite Ea, Es.
  - intros e op Eo En. simpl. now rewrite Eo, En.
Qed.

Lemma optional_fields_not_checked_witness :
  snd (writeNode (NewMarshaler EmptyString)
         (VUnary (Some Example_shapes.bare))) = Ok tt /\
  w (fst (writeNode (NewMarshaler EmptyString)
            (VUnary (Some Example_shapes.bare))))
  = declaration "Unary4" "Unary".
Proof.
  destruct (proj1 (optional_fields_not_checked (NewMarshaler EmptyString))
              (Example_shapes.at_ 4)) as [_ [Hs Hc]].
  split; [exact Hs | exact Hc].
Defined.

(** * The first malformed node decides the outcome *)

Lemma verdict_not_ok (n : value) : node_ok n = false -> verdict n <> Ok tt.
Proof.
  intros Hn Hv. apply verdict_node_ok in Hv. congruence.
Qed.

Lemma first_failure_find (l : list value) :
  first_failure (map verdict l)
  = match find (fun n => negb (node_ok n)) l with
    | Some n => verdict n
    | None => Ok tt
    end.
Proof.
  induction l as [|a l IH]; [reflexivity|]. cbn [map find first_failure].
  destruct (node_ok a) eqn:Ea; cbn [negb].
  - now rewrite (node_ok_verdict a Ea).
  - pose proof (verdict_not_ok a Ea) as Hv.
    destruct (verdict a) as [[]|e|]; [congruence | reflexivity ..].
Qed.

(** A node out of order that is no foreign value fails with the error
    of the empty [Primary] when it is one, and with a panic otherwise. *)
Lemma malformed_verdict (n : value) :
  node_ok n = false -> foreign n = false ->
  verdict n = if empty_Primary n then Err empty_primary else Panic.
Proof.
  intros Hn Hf. destruct (empty_Primary n) eqn:He.
  - now apply empty_Primary_verdict.
  - destruct (verdict_cases n Hf He) as [Hv|Hv]; [|exact Hv].
    now destruct (verdict_not_ok n Hn).
Qed.

Lemma find_malformed_split (l : list value) (n : value) :
  find (fun m => negb (node_ok m)) l = Some n <->
  exists before after : list value,
    l = before ++ n :: after /\
    forallb node_ok before = true /\ node_ok n = false.
Proof.
  split.
  - induction l as [|a l IH]; [discriminate|]. cbn [find].
    destruct (node_ok a) eqn:Ea; cbn [negb].
    + intros E. destruct (IH E) as [before [after [El [Hb Hn]]]].
      exists (a :: before), after. subst l. cbn [forallb app].
      rewrite Ea, Hb. auto.
    + intros E. injection E as <-. exists [], l. auto.
  - intros [before [after [El [Hb Hn]]]]. subst l.
    induction before as [|a before IH]; cbn [app find].
    + now rewrite Hn.
    + cbn [forallb] in Hb. apply andb_true_iff in Hb as [Ha Hb].
      rewrite Ha. cbn [negb]. now apply IH.
Qed.

Section FirstMalformed.
Context {W : Type} `{Accepting W}.

(** On a sink that accepts every write, the outcome of [MarshalRule] is
    told by the first malformed node of the traversal. *)
Lemma MarshalRule_first_malformed (d : Marshaler W) (r : Rule) :
  snd (MarshalRule d (Some r))
  = match first_malformed (root_of r) with
    | Some n => if empty_Primary n then Err empty_primary else Panic
    | None => Ok tt
    end.
Proof.
  destruct (MarshalRule_run d r) as [Hr _]. rewrite Hr, first_failure_find.
  unfold first_malformed.
  destruct (find (fun n => negb (node_ok n)) (reach (root_of r)))
    as [n|] eqn:Ef; [|reflexivity].
  apply find_some in Ef as [Hin Hn]. apply negb_true_iff in Hn.
  apply malformed_verdict; [exact Hn|].
  pose proof (reach_closed (root_of r) eq_refl) as Hcl.
  rewrite Forall_forall in Hcl. now apply Hcl.
Qed.

End FirstMalformed.

(** ** Empty leaves *)




(** ** Shared values *)

(** C8, as stated: unique (variant, offset) pairs would be enough for
    the identifiers to be declared once each.  In [a && a && a] with one
    connector value shared by the two expressions, the pairs are unique
    and the run succeeds, yet the identifier of the connector is
    declared twice. *)
Lemma shared_operator_declared_twice :
  well_formed_rule Example_shared_operator.rule = true /\
  unique_positions (root_of Example_shared_operator.rule) /\
  snd (MarshalRule (NewMarshaler EmptyString)
         (Some Example_shared_operator.rule)) = Ok tt /\
  ~ NoDup (map node_id
             (declared (walk (root_of Example_shared_operator.rule)))).
Proof.
  split; [reflexivity|]. split; [|split; [reflexivity|]].
  - unfold unique_positions. vm_compute.
    repeat (constructor; [simpl; intuition discriminate|]). constructor.
  - intros Hn.
    destruct (node_ids_NoDup_inv (root_of Example_shared_operator.rule)
                eq_refl Hn) as [_ Hi].
    unfold unique_instances in Hi. vm_compute in Hi.
    inversion Hi as [|x l Hnin _]. apply Hnin. right. left. reflexivity.
Qed.

(** ** Comparisons without operator or operand *)

(** C9, as stated: a comparison without its operator would make the
    serializer crash rather than return an error.  With an empty
    [Primary] on the left of such a comparison the marshaler returns the
    error [empty ast.Primary]: the empty [Primary] is met first. *)
Lemma nil_operator_after_empty_Primary :
  existsb missing_operator (reach (root_of Example_unmet.empty_first_rule))
  = true /\
  snd (MarshalRule (NewMarshaler EmptyString)
         (Some Example_unmet.empty_first_rule))
  = Err (Errorf "empty ast.Primary") /\
  snd (MarshalRule (NewMarshaler EmptyString)
         (Some Example_unmet.empty_first_rule)) <> Panic.
Proof. repeat split. vm_compute. discriminate. Qed.

(** C9, amended: [getChildren] reads the operator of an
    [ArrayComparison] or [ScalarComparison] without a nil check, and
    returns the right-hand side of a [ScalarComparison] as it is, nil
    or not.  With the operator there it returns the operator node and
    the operand, and on a node that is there and has its operator it
    never panics; without the operator it panics, and a nil right-hand
    side panics in [getID] when the edge to it is written.  On a sink
    that accepts every write [MarshalRule] panics exactly when the first
    malformed node that the traversal meets is not an empty [Primary]:
    so it does when that node is a comparison without operator or the
    nil right-hand side of a [ScalarComparison]. *)
Theorem comparison_nil_dereference {W : Type} `{Accepting W}
    (d : Marshaler W) (r : Rule) :
  (forall (c : ArrayComparison) (op : ref string),
      ArrayComparison_Op c = Some op ->
      getChildren (VArrayComparison (Some c))
      = Ok [opNode op; VArray (ArrayComparison_Array c)]) /\
  (forall (c : ScalarComparison) (op : ref string),
      ScalarComparison_Op c = Some op ->
      getChildren (VScalarComparison (Some c))
      = Ok [opNode op; VBitOperation (ScalarComparison_Next c)]) /\
  (forall n : value, missing_operator n = true -> getChildren n = Panic) /\
  (forall n : value,
      present n = true -> missing_operator n = false ->
      getChildren n <> Panic) /\
  (forall n : value,
      missing_operator n = false -> missing_operand n = true ->
      In (VBitOperation None) (children n) /\
      getID (VBitOperation None) = Panic) /\
  (snd (MarshalRule d (Some r)) = Panic <->
   exists n : value,
     first_malformed (root_of r) = Some n /\ empty_Primary n = false) /\
  (forall n : value,
      first_malformed (root_of r) = Some n ->
      missing_operator n = true \/ n = VBitOperation None ->
      snd (MarshalRule d (Some r)) = Panic) /\
  (forall n : value,
      first_malformed (root_of r) = Some n <->
      exists before after : list value,
        reach (root_of r) = before ++ n :: after /\
        forallb node_ok before = true /\ node_ok n = false).
Proof.
  split; [|split; [|split; [|split; [|split; [|split; [|split]]]]]].
  - intros c op E. simpl. now rewrite E.
  - intros c op E. simpl. now rewrite E.
  - intros n.
    destruct n as [[n|]|[n|]|[n|]|[n|]|[n|]|[n|]|[n|]|[n|]|[n|]|[n|]|[n|]|t];
      simpl; try discriminate.
    + destruct (ScalarComparison_Op n); [discriminate | reflexivity].
    + destruct (ArrayComparison_Op n); [discriminate | reflexivity].
  - intros n Hp Hm.
    destruct n as [[n|]|[n|]|[n|]|[n|]|[n|]|[n|]|[n|]|[n|]|[n|]|[n|]|[n|]|t];
      simpl in *; try discriminate;
      repeat match goal with
             | |- context [match ?x with _ => _ end] => destruct x
             end;
      simpl in *; try discriminate; congruence.
  - intros n Hop Hnext. split; [|reflexivity].
    now apply missing_operand_child.
  - rewrite MarshalRule_first_malformed.
    destruct (first_malformed (root_of r)) as [n|]; split.
    + destruct (empty_Primary n) eqn:He; [discriminate|].
      intros _. now exists n.
    + intros [m [Em He]]. injection Em as <-. now rewrite He.
    + discriminate.
    + intros [m [Em _]]. discriminate Em.
  - intros n Ef Hn. rewrite MarshalRule_first_malformed, Ef.
    destruct Hn as [Hn| ->]; [|reflexivity].
    destruct n as [[n|]|[n|]|[n|]|[n|]|[n|]|[n|]|[n|]|[n|]|[n|]|[n|]|[n|]|t];
      try discriminate Hn; reflexivity.
  - intros n. apply find_malformed_split.
Qed.

Lemma comparison_nil_dereference_witness :
  first_malformed (root_of Example_a_eq_1.rule_no_operator)
  = Some (VScalarComparison
            (Some (mkScalarComparison (Example_a_eq_1.at_ 2) None
                     (Some Example_a_eq_1.rhs)))) /\
  snd (MarshalRule (NewMarshaler EmptyString)
         (Some Example_a_eq_1.rule_no_operator)) = Panic.
Proof.
  split; [reflexivity|].
  apply (proj1 (proj2 (proj2 (proj2 (proj2 (proj2 (proj2
           (comparison_nil_dereference (NewMarshaler EmptyString)
              Example_a_eq_1.rule_no_operator)))))))
         (VScalarComparison
            (Some (mkScalarComparison (Example_a_eq_1.at_ 2) None
                     (Some Example_a_eq_1.rhs))))).
  - reflexivity.
  - left. reflexivity.
Defined.
